(** * A fixed length FIFO ring buffer (package ringbuffer)

    Shallow embedding of [ringbuffer.go].  The package has two layers:

    - generic functions [Cap], [Len], [Push], [Pop] over a slice and two
      cursors of any integer type [U] (Go's [constraints.Integer]);
    - the container [RingBuffer], whose methods forward to the generic
      functions with cursors of type [int].

    Go integers are modelled as [Z] together with the wrap-around of their
    type, [int] being the 64 bit signed type.  A slice is a [list]; indexing
    is checked, as in Go, and a failed check is the [Panic] outcome of the
    [result] type.  [make] is idealised: it only refuses a negative length. *)

From Stdlib Require Import ZArith Lia.
From stdpp Require Import base relations list.

Local Open Scope Z_scope.

(** ** Go integer types *)

(** The types accepted by [constraints.Integer]. *)
Inductive IntType : Set :=
  | Int | Int8 | Int16 | Int32 | Int64
  | Uint | Uint8 | Uint16 | Uint32 | Uint64 | Uintptr.

Definition bits (U : IntType) : Z :=
  match U with
  | Int8 | Uint8 => 8
  | Int16 | Uint16 => 16
  | Int32 | Uint32 => 32
  | Int | Int64 | Uint | Uint64 | Uintptr => 64
  end.

Definition signed (U : IntType) : bool :=
  match U with
  | Int | Int8 | Int16 | Int32 | Int64 => true
  | Uint | Uint8 | Uint16 | Uint32 | Uint64 | Uintptr => false
  end.

Definition min_int (U : IntType) : Z :=
  if signed U then - 2 ^ (bits U - 1) else 0.

Definition max_int (U : IntType) : Z :=
  if signed U then 2 ^ (bits U - 1) - 1 else 2 ^ bits U - 1.

(** The values of type [U]. *)
Definition in_range (U : IntType) (z : Z) : Prop :=
  min_int U <= z <= max_int U.

(** Arithmetic in [U] and conversion to [U] keep the low [bits U] bits. *)
Definition wrap (U : IntType) (z : Z) : Z :=
  if signed U
  then (z + 2 ^ (bits U - 1)) mod 2 ^ bits U - 2 ^ (bits U - 1)
  else z mod 2 ^ bits U.

Arguments wrap : simpl never.

(** ** Outcomes *)

Inductive panic : Set :=
  | IndexOutOfRange
  | DivideByZero
  | MakesliceLenOutOfRange.

Inductive result (A : Type) : Type :=
  | Ok (a : A)
  | Panic (p : panic).

Arguments Ok {A} a.
Arguments Panic {A} p.

#[global] Instance result_ret : MRet result := fun _ a => Ok a.
#[global] Instance result_bind : MBind result := fun _ _ f m =>
  match m with
  | Ok a => f a
  | Panic p => Panic p
  end.

(** The zero value of a type ([var def T]). *)
Class ZeroValue (T : Type) := zero_value : T.

#[global] Instance Z_zero_value : ZeroValue Z := 0.

(** ** Slices *)

Section Slices.
Context {T : Type}.

(** [len(slice)] *)
Definition len (slice : list T) : Z := Z.of_nat (length slice).

(** [slice[i]] as an expression. *)
Definition index (slice : list T) (i : Z) : result T :=
  if (0 <=? i) && (i <? len slice)
  then match slice !! Z.to_nat i with
       | Some x => Ok x
       | None => Panic IndexOutOfRange
       end
  else Panic IndexOutOfRange.

(** [slice[i] = v] *)
Definition assign (slice : list T) (i : Z) (v : T) : result (list T) :=
  if (0 <=? i) && (i <? len slice)
  then Ok (<[Z.to_nat i := v]> slice)
  else Panic IndexOutOfRange.

(** [a % b] on [int]: the remainder has the sign of [a]. *)
Definition rem (a b : Z) : result Z :=
  if b =? 0 then Panic DivideByZero else Ok (wrap Int (Z.rem a b)).

(** [make([]T, n)] *)
Definition make `{ZeroValue T} (n : Z) : result (list T) :=
  if n <? 0 then Panic MakesliceLenOutOfRange
  else Ok (replicate (Z.to_nat n) zero_value).
End Slices.

(** ** The generic functions *)

Section Generic.
Context {T : Type}.

(** [func Cap[T any](slice []T) int] *)
Definition Cap (slice : list T) : Z :=
  let v := wrap Int (len slice - 1) in
  if v <? 0 then 0 else v.

(** [func Len[T any, U constraints.Integer](slice []T, read, write U) int] *)
Definition Len (U : IntType) (slice : list T) (read write : Z) : Z :=
  if write >=? read
  then wrap Int (wrap U (write - read))
  else wrap Int (len slice - wrap Int (wrap U (read - write))).

(** [func Push(slice []T, read U, write *U, v T) bool].  The outcome holds
    the backing array and [*write] after the call, and the returned
    boolean. *)
Definition Push (U : IntType) (slice : list T) (read write : Z) (v : T)
  : result (list T * Z * bool) :=
  if len slice =? 0 then Ok (slice, write, false)
  else
    next ← rem (wrap Int (wrap U (write + 1))) (len slice);
    if next =? wrap Int read then Ok (slice, write, false)
    else
      slice' ← assign slice write v;
      Ok (slice', wrap U next, true).

(** [func Pop(slice []T, read *U, write U) (T, bool)].  The outcome holds
    the backing array and [*read] after the call, and the returned pair. *)
Definition Pop `{ZeroValue T} (U : IntType) (slice : list T) (read write : Z)
  : result (list T * Z * (T * bool)) :=
  if read =? write then Ok (slice, read, (zero_value, false))
  else
    val ← index slice read;
    next ← rem (wrap Int (wrap U (read + 1))) (len slice);
    Ok (slice, wrap U next, (val, true)).
End Generic.

(** ** The container *)

Record RingBuffer (T : Type) : Type := mkRingBuffer {
  read : Z;
  write : Z;
  buffer : list T
}.

Arguments mkRingBuffer {T} read write buffer.
Arguments read {T} r.
Arguments write {T} r.
Arguments buffer {T} r.

Section Container.
Context {T : Type} `{ZeroValue T}.

(** [func New[T any](capacity int) RingBuffer[T]] *)
Definition New (capacity : Z) : result (RingBuffer T) :=
  buffer ← (if capacity >=? 1 then make (wrap Int (capacity + 1))
            else Ok []);
  Ok {| buffer := buffer; read := 0; write := 0 |}.

(** The zero value [var buf RingBuffer[T]]. *)
Definition RingBuffer_zero : RingBuffer T :=
  {| read := 0; write := 0; buffer := [] |}.

(** [func (b RingBuffer[T]) Cap() int] *)
Definition RingBuffer_Cap (b : RingBuffer T) : Z := Cap (buffer b).

(** [func (b RingBuffer[T]) Len() int] *)
Definition RingBuffer_Len (b : RingBuffer T) : Z :=
  Len Int (buffer b) (read b) (write b).

(** [func (b *RingBuffer[T]) Push(v T) bool] *)
Definition RingBuffer_Push (b : RingBuffer T) (v : T)
  : result (RingBuffer T * bool) :=
  '(slice, w, ok) ← Push Int (buffer b) (read b) (write b) v;
  Ok ({| read := read b; write := w; buffer := slice |}, ok).

(** [func (b *RingBuffer[T]) Pop() (T, bool)] *)
Definition RingBuffer_Pop (b : RingBuffer T)
  : result (RingBuffer T * (T * bool)) :=
  '(slice, r, out) ← Pop Int (buffer b) (read b) (write b);
  Ok ({| read := r; write := write b; buffer := slice |}, out).
End Container.

(** ** Sequences of calls *)

Section Runs.
Context {T : Type} `{ZeroValue T}.

(** [b.Push(v1); ...; b.Push(vn)], collecting the returned booleans. *)
Fixpoint push_all (b : RingBuffer T) (vs : list T)
  : result (RingBuffer T * list bool) :=
  match vs with
  | [] => Ok (b, [])
  | v :: vs' =>
      '(b1, ok) ← RingBuffer_Push b v;
      '(b2, oks) ← push_all b1 vs';
      Ok (b2, ok :: oks)
  end.

(** [n] calls of [b.Pop()], collecting the returned pairs. *)
Fixpoint pop_n (b : RingBuffer T) (n : nat)
  : result (RingBuffer T * list (T * bool)) :=
  match n with
  | O => Ok (b, [])
  | S n' =>
      '(b1, out) ← RingBuffer_Pop b;
      '(b2, outs) ← pop_n b1 n';
      Ok (b2, out :: outs)
  end.

(** One method call that returns. *)
Inductive step : RingBuffer T -> RingBuffer T -> Prop :=
  | step_Push b v b' ok :
      RingBuffer_Push b v = Ok (b', ok) -> step b b'
  | step_Pop b b' out :
      RingBuffer_Pop b = Ok (b', out) -> step b b'.

(** The states reached from [New(C)], [C >= 1], by [Push] and [Pop]. *)
Inductive reachable : RingBuffer T -> Prop :=
  | reachable_New C b :
      in_range Int C -> 1 <= C -> New C = Ok b -> reachable b
  | reachable_step b b' :
      reachable b -> step b b' -> reachable b'.
End Runs.

(** [ringbuffer.New[int](C)] of the tests, where it returns. *)
Definition new_int (C : Z) : RingBuffer Z :=
  match New C with
  | Ok b => b
  | Panic _ => RingBuffer_zero
  end.

(** ** Specification vocabulary *)

Section Vocabulary.
Context {T : Type}.

(** INV1 of a store and its two cursors. *)
Definition INV1 (slice : list T) (r w : Z) : Prop :=
  0 <= r < len slice /\ 0 <= w < len slice.

(** The store is a Go slice all of whose indices are values of [U]. *)
Definition store_fits (U : IntType) (slice : list T) : Prop :=
  len slice <= max_int Int /\ len slice - 1 <= max_int U.

(** The representation invariant of the container. *)
Definition inv (b : RingBuffer T) : Prop :=
  INV1 (buffer b) (read b) (write b) /\ len (buffer b) <= max_int Int.

(** The slots [from], [from+1], ... ([n] of them), wrapping around. *)
Fixpoint segment (slice : list T) (from : Z) (n : nat) : list T :=
  match n with
  | O => []
  | S n' =>
      match slice !! Z.to_nat from with
      | Some x => x :: segment slice ((from + 1) mod len slice) n'
      | None => []
      end
  end.

(** The number of stored elements, and the elements, oldest first. *)
Definition count (b : RingBuffer T) : Z :=
  (write b - read b) mod len (buffer b).

Definition contents (b : RingBuffer T) : list T :=
  segment (buffer b) (read b) (Z.to_nat (count b)).

(** What [Len] is said to return, over the integers. *)
Definition Len_formula (slice : list T) (r w : Z) : Z :=
  if w >=? r then w - r else len slice - (r - w).

(** The behaviour of [Len] at one input: the formula, and 0 on a store of
    length zero. *)
Definition Len_behaviour (U : IntType) (slice : list T) (r w : Z) : Prop :=
  Len U slice r w = Len_formula slice r w /\
  (len slice = 0 -> Len U slice r w = 0).

(** A cursor that is a non-negative value of [U] and of [int]. *)
Definition cursor_value (U : IntType) (c : Z) : Prop :=
  in_range U c /\ 0 <= c <= max_int Int.

(** The condition under which [Push] is said to fail, over the integers. *)
Definition Push_fails (slice : list T) (r w : Z) : Prop :=
  len slice = 0 \/ (w + 1) mod len slice = r.

(** The behaviour of [Push] at one input: it returns false exactly when
    [Push_fails], then leaving store and cursor as they were; when it
    returns true the value is in the slot of the old write cursor and the
    cursor moved on by one, modulo the length. *)
Definition Push_behaviour (U : IntType) (slice : list T) (r w : Z) (v : T)
  : Prop :=
  ((exists slice' w', Push U slice r w v = Ok (slice', w', false))
     <-> Push_fails slice r w) /\
  (forall slice' w', Push U slice r w v = Ok (slice', w', false) ->
     slice' = slice /\ w' = w) /\
  (forall slice' w', Push U slice r w v = Ok (slice', w', true) ->
     slice' = <[Z.to_nat w := v]> slice /\
     slice' !! Z.to_nat w = Some v /\
     w' = (w + 1) mod len slice).

(** The behaviour of [Pop] at one input: on equal cursors it returns the
    zero value and false and leaves the read cursor; otherwise it returns
    the element at the read cursor and true, and the cursor moved on by
    one, modulo the length. *)
Definition Pop_behaviour `{ZeroValue T} (U : IntType) (slice : list T)
  (r w : Z) : Prop :=
  (r = w -> Pop U slice r w = Ok (slice, r, (zero_value, false))) /\
  (r <> w -> exists x, slice !! Z.to_nat r = Some x /\
     Pop U slice r w = Ok (slice, (r + 1) mod len slice, (x, true))).
End Vocabulary.

(** ** A bounded queue, and the container as one *)

Section Queue.
Context {T : Type} `{ZeroValue T}.

(** A container state the methods are meant for: the invariant holds, or it
    is the zero value. *)
Definition well_formed (b : RingBuffer T) : Prop :=
  inv b \/ b = RingBuffer_zero.

(** Pushing on a list that may hold [cap] elements. *)
Definition queue_push (cap : Z) (l : list T) (v : T) : list T * bool :=
  if len l <? cap then (l ++ [v], true) else (l, false).

(** Popping from a list. *)
Definition queue_pop (l : list T) : list T * (T * bool) :=
  match l with
  | [] => ([], (zero_value, false))
  | x :: l' => (l', (x, true))
  end.

(** How many more elements the container takes. *)
Definition free (b : RingBuffer T) : nat :=
  Z.to_nat (RingBuffer_Cap b - RingBuffer_Len b).
End Queue.

(** ** The test file *)

Section Script.
Context {T : Type} `{ZeroValue T} `{EqDecision T}.

(** [assert.Equal(expected, actual)]: a failure is recorded and the test
    goes on. *)
Definition assert_Equal {A : Type} `{EqDecision A} (expected actual : A)
  : bool :=
  bool_decide (expected = actual).

(** The statements the test is made of. *)
Inductive stmt : Type :=
  | ExpectCap (n : Z)                 (* assert.Equal(n, buf.Cap()) *)
  | ExpectLen (n : Z)                 (* assert.Equal(n, buf.Len()) *)
  | ExpectPush (e : bool) (v : T)     (* assert.Equal(e, buf.Push(v)) *)
  | ExpectPop (v : T) (e : bool).     (* eq2(buf.Pop())(v, e) *)

(** One statement, on the buffer and the verdict so far. *)
Definition run_stmt (st : stmt) (s : RingBuffer T * bool)
  : result (RingBuffer T * bool) :=
  let '(buf, passed) := s in
  match st with
  | ExpectCap n => Ok (buf, passed && assert_Equal n (RingBuffer_Cap buf))
  | ExpectLen n => Ok (buf, passed && assert_Equal n (RingBuffer_Len buf))
  | ExpectPush e v =>
      '(buf', ok) ← RingBuffer_Push buf v;
      Ok (buf', passed && assert_Equal e ok)
  | ExpectPop v e =>
      '(buf', (x, ok)) ← RingBuffer_Pop buf;
      Ok (buf', passed && (assert_Equal e ok && assert_Equal v x))
  end.

Fixpoint run_script (script : list stmt) (s : RingBuffer T * bool)
  : result (RingBuffer T * bool) :=
  match script with
  | [] => Ok s
  | st :: script' => s' ← run_stmt st s; run_script script' s'
  end.

(** [for i := 0; i < n; i++ { body }] *)
Fixpoint run_loop (n : nat) (body : list stmt) (s : RingBuffer T * bool)
  : result (RingBuffer T * bool) :=
  match n with
  | O => Ok s
  | S n' => s' ← run_script body s; run_loop n' body s'
  end.

(** The same statements on a bounded queue. *)
Definition queue_stmt (cap : Z) (st : stmt) (q : list T * bool)
  : list T * bool :=
  let '(l, passed) := q in
  match st with
  | ExpectCap n => (l, passed && assert_Equal n cap)
  | ExpectLen n => (l, passed && assert_Equal n (len l))
  | ExpectPush e v =>
      let '(l', ok) := queue_push cap l v in
      (l', passed && assert_Equal e ok)
  | ExpectPop v e =>
      let '(l', (x, ok)) := queue_pop l in
      (l', passed && (assert_Equal e ok && assert_Equal v x))
  end.

Definition queue_script (cap : Z) (script : list stmt) (q : list T * bool)
  : list T * bool :=
  foldl (fun q st => queue_stmt cap st q) q script.
End Script.

(** The block of [TestRingBuffer] on [var buf ringbuffer.RingBuffer[int]]. *)
Definition zero_value_block : list (stmt (T := Z)) :=
  [ExpectPush false 5; ExpectCap 0; ExpectLen 0; ExpectPop 0 false].

(** The block on [ringbuffer.New[int](1)]. *)
Definition capacity_one_block : list (stmt (T := Z)) :=
  [ExpectPop 0 false; ExpectCap 1; ExpectLen 0;
   ExpectPush true 3; ExpectCap 1; ExpectLen 1;
   ExpectPush false 3; ExpectCap 1; ExpectLen 1;
   ExpectPop 3 true; ExpectCap 1; ExpectLen 0;
   ExpectPop 0 false; ExpectCap 1; ExpectLen 0].

(** The body of the first loop on [ringbuffer.New[int](3)]. *)
Definition first_loop_body : list (stmt (T := Z)) :=
  [ExpectCap 3; ExpectLen 0;
   ExpectPush true 1; ExpectCap 3; ExpectLen 1;
   ExpectPush true 2; ExpectCap 3; ExpectLen 2;
   ExpectPush true 3; ExpectCap 3; ExpectLen 3;
   ExpectPop 1 true; ExpectCap 3; ExpectLen 2;
   ExpectPop 2 true; ExpectCap 3; ExpectLen 1;
   ExpectPop 3 true; ExpectCap 3; ExpectLen 0;
   ExpectPop 0 false; ExpectCap 3; ExpectLen 0].

(** The body of the second loop. *)
Definition second_loop_body : list (stmt (T := Z)) :=
  [ExpectCap 3; ExpectLen 0;
   ExpectPush true 1; ExpectCap 3; ExpectLen 1;
   ExpectPush true 2; ExpectCap 3; ExpectLen 2;
   ExpectPop 1 true; ExpectCap 3; ExpectLen 1;
   ExpectPop 2 true; ExpectCap 3; ExpectLen 0;
   ExpectPop 0 false; ExpectCap 3; ExpectLen 0;
   ExpectPush true 1; ExpectPush true 2; ExpectPush true 3;
   ExpectPush false 4;
   ExpectPop 1 true; ExpectPop 2 true; ExpectPop 3 true;
   ExpectPop 0 false].

(** [func TestRingBuffer(t *testing.T)]: true when no assertion failed. *)
Definition TestRingBuffer : result bool :=
  '(_, passed) ← run_script zero_value_block (RingBuffer_zero, true);
  buf ← New 1;
  '(_, passed) ← run_script capacity_one_block (buf, passed);
  buf ← New 3;
  s ← run_loop 10 first_loop_body (buf, passed);
  '(_, passed) ← run_loop 10 second_loop_body s;
  Ok passed.

(** ** Facts about integer types *)

Lemma max_int_Int : max_int Int = 9223372036854775807.
Proof. reflexivity. Qed.

Lemma min_int_Int : min_int Int = -9223372036854775808.
Proof. reflexivity. Qed.

Lemma wrap_id U z : in_range U z -> wrap U z = z.
Proof.
  unfold in_range, wrap, min_int, max_int.
  destruct U; cbn; intros Hz; rewrite Z.mod_small; lia.
Qed.

Lemma wrap_in_range U z : in_range U (wrap U z).
Proof.
  unfold in_range, wrap, min_int, max_int.
  destruct U; cbn;
    match goal with
    | |- context [?a mod ?m] =>
        pose proof (Z.mod_pos_bound a m ltac:(lia)); lia
    end.
Qed.

Lemma min_int_nonpos U : min_int U <= 0.
Proof. destruct U; cbn; lia. Qed.

Lemma min_int_signed U : signed U = true -> min_int U = - (max_int U + 1).
Proof. destruct U; cbn; intros; try discriminate; lia. Qed.

Lemma min_int_unsigned U : signed U = false -> min_int U = 0.
Proof. unfold min_int. intros ->. reflexivity. Qed.

Lemma min_int_ge_Int U : min_int Int <= min_int U.
Proof. destruct U; cbn; lia. Qed.

(** Overflowing by one lands on the least value of the type. *)
Lemma wrap_succ_max U : wrap U (max_int U + 1) = min_int U.
Proof. destruct U; reflexivity. Qed.

(** A value of an unsigned 64 bit type beyond [int] converts to a negative
    [int]; every other value of an integer type converts to itself. *)
Lemma wrap_Int_value U z :
  in_range U z ->
  wrap Int z = z \/ (max_int Int < z /\ wrap Int z < 0).
Proof.
  intros Hz.
  destruct (Z_le_gt_dec z (max_int Int)) as [Hle | Hgt].
  - left. apply wrap_id. split; [| exact Hle].
    pose proof (min_int_ge_Int U). unfold in_range in Hz. lia.
  - right. split; [lia |].
    assert (Hb : z <= 18446744073709551615).
    { unfold in_range, max_int in Hz. destruct U; cbn in Hz; lia. }
    rewrite max_int_Int in Hgt.
    unfold wrap; cbn.
    rewrite <- (Z.mod_add _ (-1) _) by lia.
    rewrite Z.mod_small; lia.
Qed.

(** ** Facts about slices *)

Section SliceFacts.
Context {T : Type}.
Implicit Types (slice : list T) (i : Z) (v : T).

Lemma len_nonneg slice : 0 <= len slice.
Proof. unfold len. lia. Qed.

Lemma len_nil : len (@nil T) = 0.
Proof. reflexivity. Qed.

Lemma len_cons v slice : len (v :: slice) = len slice + 1.
Proof. unfold len. cbn [length]. lia. Qed.

Lemma len_insert slice n v : len (<[n := v]> slice) = len slice.
Proof. unfold len. by rewrite length_insert. Qed.

Lemma len_replicate n v : len (replicate n v) = Z.of_nat n.
Proof. unfold len. by rewrite length_replicate. Qed.

Lemma lookup_in_bounds slice i :
  0 <= i < len slice -> exists x, slice !! Z.to_nat i = Some x.
Proof.
  unfold len. intros Hi.
  destruct (lookup_lt_is_Some_2 slice (Z.to_nat i)) as [x Hx]; [lia |].
  by exists x.
Qed.

Lemma index_in_bounds slice i x :
  0 <= i < len slice -> slice !! Z.to_nat i = Some x -> index slice i = Ok x.
Proof.
  intros Hi Hx. unfold index.
  replace (0 <=? i) with true by (symmetry; apply Z.leb_le; lia).
  replace (i <? len slice) with true by (symmetry; apply Z.ltb_lt; lia).
  cbn. by rewrite Hx.
Qed.

Lemma index_Ok slice i x :
  index slice i = Ok x -> 0 <= i < len slice /\ slice !! Z.to_nat i = Some x.
Proof.
  unfold index.
  destruct (0 <=? i) eqn:H0; destruct (i <? len slice) eqn:H1; cbn;
    try discriminate.
  apply Z.leb_le in H0. apply Z.ltb_lt in H1.
  destruct (slice !! Z.to_nat i); intros [= ->]; auto.
Qed.

Lemma index_out_of_bounds slice i :
  ~ 0 <= i < len slice -> index slice i = Panic IndexOutOfRange.
Proof.
  intros Hi. unfold index.
  destruct (0 <=? i) eqn:H0; destruct (i <? len slice) eqn:H1; cbn; auto.
  apply Z.leb_le in H0. apply Z.ltb_lt in H1. lia.
Qed.

Lemma assign_in_bounds slice i v :
  0 <= i < len slice -> assign slice i v = Ok (<[Z.to_nat i := v]> slice).
Proof.
  intros Hi. unfold assign.
  replace (0 <=? i) with true by (symmetry; apply Z.leb_le; lia).
  replace (i <? len slice) with true by (symmetry; apply Z.ltb_lt; lia).
  reflexivity.
Qed.

Lemma assign_Ok slice i v slice' :
  assign slice i v = Ok slice' ->
  0 <= i < len slice /\ slice' = <[Z.to_nat i := v]> slice.
Proof.
  unfold assign.
  destruct (0 <=? i) eqn:H0; destruct (i <? len slice) eqn:H1; cbn;
    try discriminate.
  apply Z.leb_le in H0. apply Z.ltb_lt in H1. intros [= <-]. auto.
Qed.

Lemma rem_nonzero a b : b <> 0 -> rem a b = Ok (wrap Int (Z.rem a b)).
Proof. intros Hb. unfold rem. by rewrite (proj2 (Z.eqb_neq b 0) Hb). Qed.
End SliceFacts.

(** ** Advancing a cursor *)

(** [U(int(c+1) % len(slice))] for a cursor inside a store whose indices
    fit [U]: one step forward modulo the length, also when [c+1] overflows
    [U] because the store has exactly as many slots as [U] has non-negative
    values. *)
Lemma advance_cursor U L c :
  0 <= c < L -> L <= max_int Int -> L - 1 <= max_int U ->
  rem (wrap Int (wrap U (c + 1))) L = Ok ((c + 1) mod L) /\
  wrap U ((c + 1) mod L) = (c + 1) mod L /\
  0 <= (c + 1) mod L < L.
Proof.
  intros Hc HL HU.
  pose proof (min_int_nonpos U) as Hmin.
  pose proof min_int_Int as HminI. pose proof max_int_Int as HmaxI.
  assert (Hm : 0 <= (c + 1) mod L < L) by (apply Z.mod_pos_bound; lia).
  assert (Hwm : wrap U ((c + 1) mod L) = (c + 1) mod L).
  { apply wrap_id. unfold in_range. lia. }
  assert (HwI : wrap Int ((c + 1) mod L) = (c + 1) mod L).
  { apply wrap_id. unfold in_range. lia. }
  split; [| split; assumption].
  rewrite rem_nonzero by lia. f_equal.
  destruct (Z_le_gt_dec (c + 1) (max_int U)) as [Hle | Hgt].
  - rewrite (wrap_id U (c + 1)) by (unfold in_range; lia).
    rewrite (wrap_id Int (c + 1)) by (unfold in_range; lia).
    rewrite Z.rem_mod_nonneg by lia. exact HwI.
  - assert (Hc1 : c + 1 = max_int U + 1) by lia.
    assert (HLe : L = max_int U + 1) by lia.
    assert (H0 : (c + 1) mod L = 0).
    { replace (c + 1) with L by lia. apply Z_mod_same_full. }
    rewrite H0, Hc1, wrap_succ_max.
    destruct (signed U) eqn:Hs.
    + rewrite (min_int_signed U Hs), <- HLe.
      rewrite (wrap_id Int (- L)) by (unfold in_range; lia).
      rewrite Z.rem_opp_l, Z.rem_same by lia. reflexivity.
    + rewrite (min_int_unsigned U Hs).
      rewrite (wrap_id Int 0) by (unfold in_range; lia).
      rewrite Z.rem_0_l by lia. reflexivity.
Qed.

(** A remainder modulo [L] of a number between [-L] and [2L]. *)
Lemma mod_window L x :
  0 < L -> - L <= x < 2 * L ->
  (x < 0 /\ x mod L = x + L) \/
  (0 <= x < L /\ x mod L = x) \/
  (L <= x /\ x mod L = x - L).
Proof.
  intros HL Hx.
  destruct (Z_lt_ge_dec x 0) as [Hneg | Hpos].
  - left. split; [assumption |].
    rewrite <- (Z.mod_add x 1 L) by lia.
    rewrite Z.mod_small; lia.
  - right. destruct (Z_lt_ge_dec x L) as [Hlt | Hge].
    + left. split; [lia |]. apply Z.mod_small. lia.
    + right. split; [lia |].
      rewrite <- (Z.mod_add x (-1) L) by lia.
      rewrite Z.mod_small; lia.
Qed.

Ltac mod_window L x :=
  let H := fresh "Hmod" in
  destruct (mod_window L x) as [[? H] | [[? H] | [? H]]];
  [lia | lia | | |]; rewrite ?H in *.

(** ** The generic functions on cursors inside the store *)

Section GenericFacts.
Context {T : Type} `{ZeroValue T}.
Implicit Types (slice : list T) (r w : Z) (v : T) (U : IntType).

Lemma store_fits_Int slice : len slice <= max_int Int -> store_fits Int slice.
Proof. unfold store_fits. lia. Qed.

Lemma Push_empty_store U slice r w v :
  len slice = 0 -> Push U slice r w v = Ok (slice, w, false).
Proof. intros H0. unfold Push. by rewrite H0. Qed.

Lemma Push_in_bounds U slice r w v :
  store_fits U slice -> in_range U r -> 0 <= w < len slice ->
  Push U slice r w v =
    if (w + 1) mod len slice =? r
    then Ok (slice, w, false)
    else Ok (<[Z.to_nat w := v]> slice, (w + 1) mod len slice, true).
Proof.
  intros [HI HU] Hr Hw. unfold Push.
  rewrite (proj2 (Z.eqb_neq (len slice) 0)) by lia.
  destruct (advance_cursor U (len slice) w Hw HI HU) as (-> & Hwrap & Hnext).
  cbn. rewrite Hwrap.
  assert (Heq : ((w + 1) mod len slice =? wrap Int r)
                = ((w + 1) mod len slice =? r)).
  { destruct (wrap_Int_value U r Hr) as [-> | [Hbig Hneg]]; [done |].
    rewrite (proj2 (Z.eqb_neq _ (wrap Int r))) by lia.
    rewrite (proj2 (Z.eqb_neq _ r)) by lia. done. }
  rewrite Heq. destruct (_ =? r); [done |].
  by rewrite assign_in_bounds.
Qed.

Lemma Pop_empty U slice r :
  Pop U slice r r = Ok (slice, r, (zero_value, false)).
Proof. unfold Pop. by rewrite Z.eqb_refl. Qed.

Lemma Pop_in_bounds U slice r w x :
  store_fits U slice -> 0 <= r < len slice -> r <> w ->
  slice !! Z.to_nat r = Some x ->
  Pop U slice r w = Ok (slice, (r + 1) mod len slice, (x, true)).
Proof.
  intros [HI HU] Hr Hne Hx. unfold Pop.
  rewrite (proj2 (Z.eqb_neq r w)) by done.
  rewrite (index_in_bounds slice r x) by done.
  destruct (advance_cursor U (len slice) r Hr HI HU) as (Hrem & Hwrap & _).
  cbn. rewrite Hrem. cbn. by rewrite Hwrap.
Qed.

(** The only fault of [Push] is the store access at [write]. *)
Lemma Push_Panic U slice r w v p :
  Push U slice r w v = Panic p ->
  p = IndexOutOfRange /\ len slice <> 0 /\ ~ 0 <= w < len slice.
Proof.
  unfold Push. destruct (len slice =? 0) eqn:H0; [discriminate |].
  apply Z.eqb_neq in H0. rewrite rem_nonzero by done. cbn.
  destruct (_ =? wrap Int r); [discriminate |].
  destruct (assign slice w v) as [slice' |] eqn:Ha; cbn; [discriminate |].
  intros [= <-]. unfold assign in Ha.
  destruct (0 <=? w) eqn:H1; destruct (w <? len slice) eqn:H2;
    cbn in Ha; try discriminate;
    injection Ha as <-; (split; [done |]); (split; [done |]);
    try apply Z.leb_gt in H1; try apply Z.ltb_ge in H2; lia.
Qed.

(** The only fault of [Pop] is the store access at [read]. *)
Lemma Pop_Panic U slice r w p :
  Pop U slice r w = Panic p ->
  p = IndexOutOfRange /\ r <> w /\ ~ 0 <= r < len slice.
Proof.
  unfold Pop. destruct (r =? w) eqn:Hrw; [discriminate |].
  apply Z.eqb_neq in Hrw.
  destruct (index slice r) as [x |] eqn:Hi; cbn.
  - apply index_Ok in Hi as [Hr _].
    rewrite rem_nonzero by lia. discriminate.
  - intros [= <-].
    destruct (Z_le_gt_dec 0 r); [destruct (Z_lt_ge_dec r (len slice)) |].
    + destruct (lookup_in_bounds slice r) as [x Hx]; [lia |].
      rewrite (index_in_bounds slice r x) in Hi by (done || lia).
      discriminate.
    + rewrite index_out_of_bounds in Hi by lia.
      injection Hi as <-. repeat split; [done | lia].
    + rewrite index_out_of_bounds in Hi by lia.
      injection Hi as <-. repeat split; [done | lia].
Qed.
End GenericFacts.

(** ** Construction *)

Section NewFacts.
Context {T : Type} `{ZeroValue T}.

Lemma New_nonpositive C : C <= 0 -> New C = Ok (RingBuffer_zero (T := T)).
Proof.
  intros HC. unfold New.
  replace (C >=? 1) with false
    by (symmetry; rewrite Z.geb_leb; apply Z.leb_gt; lia).
  reflexivity.
Qed.

Lemma New_positive C :
  1 <= C < max_int Int ->
  New C = Ok {| read := 0; write := 0;
                buffer := replicate (Z.to_nat (C + 1)) (zero_value (T := T)) |}.
Proof.
  intros HC. unfold New.
  replace (C >=? 1) with true
    by (symmetry; rewrite Z.geb_leb; apply Z.leb_le; lia).
  rewrite wrap_id by (pose proof (min_int_nonpos Int); unfold in_range; lia).
  unfold make. rewrite (proj2 (Z.ltb_ge (C + 1) 0)) by lia. reflexivity.
Qed.

(** The length [capacity+1] overflows [int] at the greatest capacity. *)
Lemma New_max_int :
  New (T := T) (max_int Int) = Panic MakesliceLenOutOfRange.
Proof. unfold New. rewrite wrap_succ_max. reflexivity. Qed.

Lemma New_Ok C b :
  in_range Int C -> 1 <= C -> New C = Ok b ->
  C < max_int Int /\
  b = {| read := 0; write := 0;
         buffer := replicate (Z.to_nat (C + 1)) zero_value |}.
Proof.
  intros [_ Hmax] HC HN.
  destruct (Z_lt_ge_dec C (max_int Int)) as [Hlt | Hge].
  - split; [done |]. rewrite New_positive in HN by lia. by injection HN.
  - replace C with (max_int Int) in HN by lia.
    rewrite New_max_int in HN. discriminate.
Qed.

Lemma New_inv C b :
  in_range Int C -> 1 <= C -> New C = Ok b ->
  inv b /\ len (buffer b) = C + 1 /\ read b = 0 /\ write b = 0.
Proof.
  intros Hr HC HN. destruct (New_Ok C b Hr HC HN) as [Hlt ->].
  unfold inv, INV1. cbn [read write buffer]. rewrite len_replicate. lia.
Qed.
End NewFacts.

(** ** The container under its invariant *)

Section CountFacts.
Context {T : Type}.
Implicit Types (b : RingBuffer T).

Lemma count_bounds b : inv b -> 0 <= count b <= len (buffer b) - 1.
Proof.
  intros [[Hr Hw] _]. unfold count.
  pose proof (Z.mod_pos_bound (write b - read b) (len (buffer b))). lia.
Qed.

Lemma count_formula b :
  inv b -> count b = Len_formula (buffer b) (read b) (write b).
Proof.
  intros [[Hr Hw] _]. unfold count, Len_formula.
  destruct (write b >=? read b) eqn:Hge; rewrite Z.geb_leb in Hge;
    [apply Z.leb_le in Hge | apply Z.leb_gt in Hge];
    mod_window (len (buffer b)) (write b - read b); lia.
Qed.

Lemma count_zero b : inv b -> (count b = 0 <-> read b = write b).
Proof.
  intros [[Hr Hw] _]. unfold count.
  mod_window (len (buffer b)) (write b - read b); lia.
Qed.

Lemma count_full b :
  inv b ->
  ((write b + 1) mod len (buffer b) = read b
     <-> count b = len (buffer b) - 1).
Proof.
  intros [[Hr Hw] _]. unfold count.
  mod_window (len (buffer b)) (write b - read b);
    mod_window (len (buffer b)) (write b + 1); lia.
Qed.

Lemma count_after_Push b :
  inv b -> (write b + 1) mod len (buffer b) <> read b ->
  ((write b + 1) mod len (buffer b) - read b) mod len (buffer b)
    = count b + 1.
Proof.
  intros [[Hr Hw] _]. unfold count.
  mod_window (len (buffer b)) (write b - read b);
    mod_window (len (buffer b)) (write b + 1); intros Hne;
    match goal with
    | |- ?x mod _ = _ => mod_window (len (buffer b)) x
    end; lia.
Qed.

Lemma count_after_Pop b :
  inv b -> read b <> write b ->
  (write b - (read b + 1) mod len (buffer b)) mod len (buffer b)
    = count b - 1.
Proof.
  intros [[Hr Hw] _]. unfold count.
  mod_window (len (buffer b)) (write b - read b);
    mod_window (len (buffer b)) (read b + 1); intros Hne;
    match goal with
    | |- ?x mod _ = _ => mod_window (len (buffer b)) x
    end; lia.
Qed.
End CountFacts.

Section SegmentFacts.
Context {T : Type}.
Implicit Types (slice : list T) (v : T).

Lemma segment_S slice from n :
  segment slice from (S n) =
    match slice !! Z.to_nat from with
    | Some x => x :: segment slice ((from + 1) mod len slice) n
    | None => []
    end.
Proof. reflexivity. Qed.

Lemma segment_length slice n : forall from,
  0 <= from < len slice -> length (segment slice from n) = n.
Proof.
  induction n as [| n IH]; intros from Hfrom; [reflexivity |].
  cbn [segment].
  destruct (lookup_in_bounds slice from Hfrom) as [x ->].
  cbn [length]. rewrite IH; [reflexivity |].
  apply Z.mod_pos_bound. lia.
Qed.

(** Writing the slot just behind the segment extends it at its end. *)
Lemma segment_after_assign slice w v n : forall from,
  0 <= from < len slice -> 0 <= w < len slice ->
  (w - from) mod len slice = Z.of_nat n ->
  segment (<[Z.to_nat w := v]> slice) from (S n)
    = segment slice from n ++ [v].
Proof.
  induction n as [| n IH]; intros from Hfrom Hw Hn.
  - assert (from = w) as ->.
    { revert Hn. mod_window (len slice) (w - from); lia. }
    cbn [segment]. rewrite list_lookup_insert_eq; [reflexivity |].
    unfold len in Hw. lia.
  - assert (Hne : from <> w).
    { intros ->. rewrite Z.sub_diag, Z.mod_0_l in Hn by lia. lia. }
    destruct (lookup_in_bounds slice from Hfrom) as [x Hx].
    rewrite (segment_S (<[Z.to_nat w := v]> slice) from (S n)).
    rewrite (segment_S slice from n).
    rewrite list_lookup_insert_ne by lia.
    rewrite Hx, len_insert. cbn [app].
    rewrite IH; [reflexivity | apply Z.mod_pos_bound; lia | assumption |].
    revert Hn. mod_window (len slice) (w - from);
      mod_window (len slice) (from + 1); intros Hn;
      match goal with
      | |- ?x mod _ = _ => mod_window (len slice) x
      end; lia.
Qed.
End SegmentFacts.

Section LenCapFacts.
Context {T : Type}.
Implicit Types (slice : list T) (r w : Z) (U : IntType).

Lemma Cap_formula slice :
  len slice <= max_int Int -> Cap slice = Z.max (len slice - 1) 0.
Proof.
  intros HI. unfold Cap. pose proof (len_nonneg slice).
  pose proof min_int_Int.
  rewrite wrap_id by (unfold in_range; lia).
  destruct (len slice - 1 <? 0) eqn:Hneg;
    [apply Z.ltb_lt in Hneg | apply Z.ltb_ge in Hneg]; lia.
Qed.

(** [Len] on cursors that are non-negative values of [U] and of [int]. *)
Lemma Len_nonneg_cursors U slice r w :
  len slice <= max_int Int ->
  in_range U r -> in_range U w ->
  0 <= r <= max_int Int -> 0 <= w <= max_int Int ->
  Len U slice r w = Len_formula slice r w.
Proof.
  intros HI [Hr1 Hr2] [Hw1 Hw2] Hr Hw. unfold Len, Len_formula.
  pose proof (len_nonneg slice). pose proof (min_int_nonpos U).
  pose proof min_int_Int. pose proof max_int_Int.
  destruct (w >=? r) eqn:Hge; rewrite Z.geb_leb in Hge;
    [apply Z.leb_le in Hge | apply Z.leb_gt in Hge].
  - rewrite (wrap_id U) by (unfold in_range; lia).
    apply wrap_id. unfold in_range. lia.
  - rewrite (wrap_id U) by (unfold in_range; lia).
    rewrite (wrap_id Int (r - w)) by (unfold in_range; lia).
    apply wrap_id. unfold in_range. lia.
Qed.

Lemma Len_equal_cursors U slice r : Len U slice r r = 0.
Proof.
  unfold Len. replace (r >=? r) with true
    by (symmetry; rewrite Z.geb_leb; apply Z.leb_refl).
  rewrite Z.sub_diag. destruct U; reflexivity.
Qed.
End LenCapFacts.

Section ContainerFacts.
Context {T : Type} `{ZeroValue T}.
Implicit Types (b : RingBuffer T) (v : T).

Lemma RingBuffer_Len_count b : inv b -> RingBuffer_Len b = count b.
Proof.
  intros Hinv. rewrite (count_formula b Hinv).
  destruct Hinv as [[Hr Hw] HI]. unfold RingBuffer_Len.
  pose proof (min_int_Int).
  apply Len_nonneg_cursors; unfold in_range; lia.
Qed.

Lemma RingBuffer_Cap_len b :
  inv b -> RingBuffer_Cap b = len (buffer b) - 1.
Proof.
  intros [[Hr Hw] HI]. unfold RingBuffer_Cap.
  rewrite Cap_formula by done. lia.
Qed.

Lemma contents_length b : inv b -> len (contents b) = count b.
Proof.
  intros Hinv. pose proof (count_bounds b Hinv).
  destruct Hinv as [[Hr Hw] HI].
  unfold len at 1. unfold contents. rewrite segment_length by done. lia.
Qed.

Lemma RingBuffer_Push_full b v :
  inv b -> count b = len (buffer b) - 1 ->
  RingBuffer_Push b v = Ok (b, false).
Proof.
  intros Hinv Hfull. apply (count_full b Hinv) in Hfull.
  destruct Hinv as [[Hr Hw] HI]. unfold RingBuffer_Push.
  pose proof min_int_Int.
  rewrite Push_in_bounds;
    [| by apply store_fits_Int | unfold in_range; lia | done].
  rewrite (proj2 (Z.eqb_eq _ _) Hfull). cbn. by destruct b.
Qed.

Lemma RingBuffer_Push_room b v :
  inv b -> count b < len (buffer b) - 1 ->
  exists b',
    RingBuffer_Push b v = Ok (b', true) /\ inv b' /\
    count b' = count b + 1 /\ contents b' = contents b ++ [v] /\
    len (buffer b') = len (buffer b) /\ read b' = read b.
Proof.
  intros Hinv Hroom.
  assert (Hne : (write b + 1) mod len (buffer b) <> read b).
  { intros Heq. apply (count_full b Hinv) in Heq. lia. }
  pose proof (count_after_Push b Hinv Hne) as Hcount.
  pose proof (count_bounds b Hinv) as Hbounds.
  destruct Hinv as [[Hr Hw] HI]. unfold RingBuffer_Push.
  pose proof min_int_Int.
  rewrite Push_in_bounds;
    [| by apply store_fits_Int | unfold in_range; lia | done].
  rewrite (proj2 (Z.eqb_neq _ _) Hne). cbn.
  eexists. split; [reflexivity |].
  unfold inv, INV1, contents, count. cbn [read write buffer].
  rewrite len_insert.
  assert (0 <= (write b + 1) mod len (buffer b) < len (buffer b))
    by (apply Z.mod_pos_bound; lia).
  unfold count in Hcount, Hbounds.
  repeat split; try lia.
  rewrite Hcount.
  replace (Z.to_nat ((write b - read b) mod len (buffer b) + 1))
    with (S (Z.to_nat ((write b - read b) mod len (buffer b)))) by lia.
  apply segment_after_assign; try done. lia.
Qed.

Lemma RingBuffer_Pop_empty b :
  read b = write b -> RingBuffer_Pop b = Ok (b, (zero_value, false)).
Proof.
  intros Heq. unfold RingBuffer_Pop. rewrite Heq, Pop_empty. cbn.
  destruct b; cbn in *. by subst.
Qed.

Lemma RingBuffer_Pop_nonempty b :
  inv b -> count b <> 0 ->
  exists x b',
    RingBuffer_Pop b = Ok (b', (x, true)) /\ inv b' /\
    count b' = count b - 1 /\ contents b = x :: contents b' /\
    buffer b' = buffer b /\ write b' = write b.
Proof.
  intros Hinv Hcount.
  assert (Hne : read b <> write b).
  { intros Heq. apply (count_zero b Hinv) in Heq. lia. }
  pose proof (count_after_Pop b Hinv Hne) as Hafter.
  pose proof (count_bounds b Hinv) as Hbounds.
  destruct Hinv as [[Hr Hw] HI].
  destruct (lookup_in_bounds (buffer b) (read b) Hr) as [x Hx].
  exists x. unfold RingBuffer_Pop.
  rewrite (Pop_in_bounds Int (buffer b) (read b) (write b) x);
    [| by apply store_fits_Int | done | done | done].
  cbn. eexists. split; [reflexivity |].
  unfold inv, INV1, contents, count. cbn [read write buffer].
  assert (0 <= (read b + 1) mod len (buffer b) < len (buffer b))
    by (apply Z.mod_pos_bound; lia).
  unfold count in Hafter, Hbounds, Hcount.
  repeat split; try lia.
  rewrite Hafter.
  replace (Z.to_nat ((write b - read b) mod len (buffer b)))
    with (S (Z.to_nat ((write b - read b) mod len (buffer b) - 1)))
    at 1 by lia.
  rewrite segment_S. by rewrite Hx.
Qed.
End ContainerFacts.

(** ** The scenarios of the package's tests *)

Example zero_value_scenario :
  RingBuffer_Push (RingBuffer_zero (T := Z)) 5 = Ok (RingBuffer_zero, false) /\
  RingBuffer_Cap (RingBuffer_zero (T := Z)) = 0 /\
  RingBuffer_Len (RingBuffer_zero (T := Z)) = 0 /\
  RingBuffer_Pop (RingBuffer_zero (T := Z)) = Ok (RingBuffer_zero, (0, false)).
Proof. repeat split; vm_compute; reflexivity. Qed.

Example capacity_one_scenario :
  let b1 := mkRingBuffer 0 1 [3; 0] in
  let b2 := mkRingBuffer 1 1 [3; 0] in
  RingBuffer_Pop (new_int 1) = Ok (new_int 1, (0, false)) /\
  RingBuffer_Push (new_int 1) 3 = Ok (b1, true) /\
  RingBuffer_Len b1 = 1 /\ RingBuffer_Cap b1 = 1 /\
  RingBuffer_Push b1 3 = Ok (b1, false) /\
  RingBuffer_Pop b1 = Ok (b2, (3, true)) /\
  RingBuffer_Len b2 = 0 /\
  RingBuffer_Pop b2 = Ok (b2, (0, false)).
Proof. repeat split; vm_compute; reflexivity. Qed.

Example capacity_three_scenario :
  let b1 := mkRingBuffer 0 3 [1; 2; 3; 0] in
  let b2 := mkRingBuffer 3 3 [1; 2; 3; 0] in
  let b3 := mkRingBuffer 3 2 [2; 3; 3; 1] in
  let b4 := mkRingBuffer 2 2 [2; 3; 3; 1] in
  push_all (new_int 3) [1; 2; 3; 4] = Ok (b1, [true; true; true; false]) /\
  RingBuffer_Len b1 = 3 /\ RingBuffer_Cap b1 = 3 /\
  pop_n b1 4 = Ok (b2, [(1, true); (2, true); (3, true); (0, false)]) /\
  RingBuffer_Len b2 = 0 /\
  push_all b2 [1; 2; 3; 4] = Ok (b3, [true; true; true; false]) /\
  pop_n b3 4 = Ok (b4, [(1, true); (2, true); (3, true); (0, false)]) /\
  RingBuffer_Len b4 = 0 /\ RingBuffer_Cap b4 = 3.
Proof. repeat split; vm_compute; reflexivity. Qed.

Example low_level_scenario :
  let buf := replicate 10 0 in
  Cap buf = 9 /\ Len Int8 buf 0 0 = 0 /\
  Push Int8 buf 0 0 1 = Ok (<[0%nat := 1]> buf, 1, true) /\
  Len Int8 (<[0%nat := 1]> buf) 0 1 = 1.
Proof. repeat split; vm_compute; reflexivity. Qed.

(** ** Construction and capacity *)

Lemma in_range_Int z :
  -9223372036854775808 <= z <= 9223372036854775807 -> in_range Int z.
Proof. unfold in_range. rewrite min_int_Int, max_int_Int. done. Qed.



(** ** The zero value *)

(** C7. The zero value of the container is what [New(C)] returns for every
    [C <= 0]; on it [Cap()] and [Len()] are 0, every [Push] returns false and
    every [Pop] returns the zero value and false, each leaving the container
    as it is, so that no sequence of calls leaves the zero value. *)
Theorem zero_value_equivalence {T : Type} `{ZeroValue T} (C : Z) :
  C <= 0 ->
  New C = Ok (RingBuffer_zero (T := T)) /\
  RingBuffer_Cap (RingBuffer_zero (T := T)) = 0 /\
  RingBuffer_Len (RingBuffer_zero (T := T)) = 0 /\
  (forall v : T, RingBuffer_Push RingBuffer_zero v
                 = Ok (RingBuffer_zero, false)) /\
  RingBuffer_Pop (RingBuffer_zero (T := T))
    = Ok (RingBuffer_zero, (zero_value, false)) /\
  (forall b : RingBuffer T, rtc step RingBuffer_zero b -> b = RingBuffer_zero).
Proof.
  intros HC.
  assert (HPush : forall v : T,
    RingBuffer_Push RingBuffer_zero v = Ok (RingBuffer_zero, false))
    by reflexivity.
  assert (HPop : RingBuffer_Pop (RingBuffer_zero (T := T))
                 = Ok (RingBuffer_zero, (zero_value, false)))
    by reflexivity.
  split; [by apply New_nonpositive |].
  do 4 (split; [done |]).
  assert (Hclosed : forall z b : RingBuffer T,
    z = RingBuffer_zero -> rtc step z b -> b = RingBuffer_zero).
  { intros z b Hz Hsteps.
    induction Hsteps as [z | z b1 b2 Hstep _ IH]; [exact Hz |].
    apply IH. subst z.
    inversion Hstep as [b0 v b' ok HP | b0 b' out HP]; subst.
    - rewrite HPush in HP. by injection HP.
    - rewrite HPop in HP. by injection HP. }
  intros b Hsteps. by apply (Hclosed RingBuffer_zero).
Qed.

Lemma zero_value_equivalence_witness :
  -2 <= 0 /\ New (-2) = Ok (RingBuffer_zero (T := Z)).
Proof.
  assert (HC : -2 <= 0) by lia.
  split; [exact HC |].
  exact (proj1 (zero_value_equivalence (T := Z) (-2) HC)).
Defined.

(** ** Push *)

(** On a store of 300 slots with [uint8] cursors, [write = 255] and
    [read = 0]: [write + 1] overflows to 0, which equals [read], and [Push]
    returns false although [(255 + 1) mod 300 = 256] is not [read]. *)
Lemma Push_behaviour_overflow :
  ~ Push_behaviour Uint8 (replicate 300 0) 0 255 7.
Proof.
  intros [[Hfalse _] _].
  destruct Hfalse as [Hlen | Hnext].
  - exists (replicate 300 0), 255. vm_compute. reflexivity.
  - vm_compute in Hlen. discriminate.
  - vm_compute in Hnext. discriminate.
Qed.

(** C4, amended.  For every store all of whose indices are values of the
    cursor type, every read cursor, and every write cursor inside the store
    (or any write cursor when the store has length zero): [Push] returns
    false exactly when [len(store) = 0] or [(write + 1) mod len(store) = read],
    then leaving cursor and store as they were; and when it returns true the
    value is in the slot of the old write cursor and the cursor has become
    [(write + 1) mod len(store)]. *)
Theorem Push_behaviour_in_bounds {T : Type}
  (U : IntType) (slice : list T) (r w : Z) (v : T) :
  store_fits U slice -> in_range U r ->
  len slice = 0 \/ 0 <= w < len slice ->
  Push_behaviour U slice r w v.
Proof.
  intros Hfits Hr [H0 | Hw]; unfold Push_behaviour, Push_fails.
  - rewrite Push_empty_store by done. split; [| split].
    + split; [intros _; by left | intros _; by exists slice, w].
    + by intros ? ? [= <- <-].
    + intros ? ? [=].
  - rewrite Push_in_bounds by done.
    destruct ((w + 1) mod len slice =? r) eqn:Hnext;
      [apply Z.eqb_eq in Hnext | apply Z.eqb_neq in Hnext].
    + split; [| split].
      * split; [intros _; by right | intros _; by exists slice, w].
      * by intros ? ? [= <- <-].
      * intros ? ? [=].
    + split; [| split].
      * split; [intros (? & ? & [=]) | intros [H0 | Hn]; [lia | done]].
      * intros ? ? [=].
      * intros ? ? [= <- <-]. split; [done |]. split; [| done].
        apply list_lookup_insert_eq. unfold len in Hw. lia.
Qed.

Lemma Push_behaviour_in_bounds_witness :
  (store_fits Uint8 [0; 0; 0] /\ in_range Uint8 0 /\
   (len [0; 0; 0] = 0 \/ 0 <= 2 < len [0; 0; 0])) /\
  Push_behaviour Uint8 [0; 0; 0] 0 2 7.
Proof.
  assert (Hfits : store_fits Uint8 [0; 0; 0])
    by (unfold store_fits, len; cbn; lia).
  assert (Hr : in_range Uint8 0) by (unfold in_range; cbn; lia).
  assert (Hw : len [0; 0; 0] = 0 \/ 0 <= 2 < len [0; 0; 0])
    by (right; unfold len; cbn; lia).
  split; [by repeat split |].
  exact (Push_behaviour_in_bounds Uint8 [0; 0; 0] 0 2 7 Hfits Hr Hw).
Defined.

(** ** Pop *)

(** On a store of three slots with [read = 3] and [write = 0] the cursors
    differ, and the access [slice[3]] is out of range: [Pop] panics where it
    is said to return the element at the read cursor. *)
Lemma Pop_behaviour_out_of_range :
  ~ Pop_behaviour Int [10; 20; 30] 3 0.
Proof.
  intros [_ Hne]. destruct Hne as (x & Hx & _); [lia |].
  cbn in Hx. discriminate.
Qed.

Lemma Pop_out_of_range_panics :
  Pop Int [10; 20; 30] 3 0 = Panic IndexOutOfRange.
Proof. reflexivity. Qed.

(** C5, amended.  For every store all of whose indices are values of the
    cursor type, and all cursors such that the read cursor is inside the
    store or equal to the write cursor: [Pop] returns the zero value and
    false when [read = write], leaving the read cursor; otherwise it returns
    the element at the read cursor and true, and the read cursor has become
    [(read + 1) mod len(store)].  So false is returned exactly when
    [read = write]. *)
Theorem Pop_behaviour_in_bounds {T : Type} `{ZeroValue T}
  (U : IntType) (slice : list T) (r w : Z) :
  store_fits U slice ->
  r = w \/ 0 <= r < len slice ->
  Pop_behaviour U slice r w /\
  ((exists slice' r' x, Pop U slice r w = Ok (slice', r', (x, false)))
     <-> r = w).
Proof.
  intros Hfits Hr.
  assert (HP : Pop_behaviour U slice r w).
  { split.
    - intros ->. apply Pop_empty.
    - intros Hne. destruct Hr as [-> | Hr]; [done |].
      destruct (lookup_in_bounds slice r Hr) as [x Hx].
      exists x. split; [done |]. by apply Pop_in_bounds. }
  split; [exact HP |]. destruct HP as [Heq Hne]. split.
  - intros (slice' & r' & x & HPop).
    destruct (Z.eq_dec r w) as [| Hd]; [done |].
    destruct (Hne Hd) as (y & _ & HPop'). congruence.
  - intros Hrw. exists slice, r, zero_value. by apply Heq.
Qed.

Lemma Pop_behaviour_in_bounds_witness :
  (store_fits Int8 [10; 20; 30] /\ (2 = 0 \/ 0 <= 2 < len [10; 20; 30])) /\
  Pop Int8 [10; 20; 30] 2 0 = Ok ([10; 20; 30], 0, (30, true)).
Proof.
  assert (Hfits : store_fits Int8 [10; 20; 30])
    by (unfold store_fits, len; cbn; lia).
  assert (Hr : 2 = 0 \/ 0 <= 2 < len [10; 20; 30])
    by (right; unfold len; cbn; lia).
  split; [by split |].
  destruct (Pop_behaviour_in_bounds Int8 [10; 20; 30] 2 0 Hfits Hr)
    as [[_ Hne] _].
  destruct (Hne ltac:(lia)) as (x & Hx & HPop).
  injection Hx as <-. exact HPop.
Defined.

(** ** Len *)

(** On a store of length zero with [read = 0] and [write = 1], [Len]
    returns [write - read = 1], not 0. *)
Lemma Len_behaviour_empty_store : ~ Len_behaviour Int (@nil Z) 0 1.
Proof. intros [_ H0]. specialize (H0 eq_refl). discriminate. Qed.

(** With [int8] cursors [write = 127] and [read = -128] the difference
    overflows: [Len] returns -1, not 255. *)
Lemma Len_overflow : Len Int8 [0; 0; 0] (-128) 127 = -1.
Proof. reflexivity. Qed.

(** C6, amended.  For every store and every pair of cursors that are
    non-negative values of the cursor type and of [int]: [Len] returns
    [write - read] when [write >= read] and [len(store) - (read - write)]
    otherwise; on a store of length zero it returns 0 when the cursors are
    equal.  [Len] is a total function: it never fails. *)
Theorem Len_formula_nonneg {T : Type}
  (U : IntType) (slice : list T) (r w : Z) :
  len slice <= max_int Int ->
  cursor_value U r -> cursor_value U w ->
  Len U slice r w = (if w >=? r then w - r else len slice - (r - w)) /\
  (len slice = 0 -> r = w -> Len U slice r w = 0).
Proof.
  intros Hs [Hr1 Hr2] [Hw1 Hw2]. split.
  - by apply Len_nonneg_cursors.
  - intros _ ->. apply Len_equal_cursors.
Qed.

Lemma Len_formula_nonneg_witness :
  (len [0; 0; 0; 0] <= max_int Int /\
   cursor_value Uint16 3 /\ cursor_value Uint16 1) /\
  Len Uint16 [0; 0; 0; 0] 3 1 = 4 - (3 - 1).
Proof.
  assert (Hs : len [0; 0; 0; 0] <= max_int Int)
    by (rewrite max_int_Int; unfold len; cbn; lia).
  assert (Hr : cursor_value Uint16 3)
    by (unfold cursor_value, in_range; rewrite max_int_Int; cbn; lia).
  assert (Hw : cursor_value Uint16 1)
    by (unfold cursor_value, in_range; rewrite max_int_Int; cbn; lia).
  split; [by repeat split |].
  exact (proj1 (Len_formula_nonneg Uint16 [0; 0; 0; 0] 3 1 Hs Hr Hw)).
Defined.

(** ** Frame *)

Lemma Push_Ok_frame {T : Type} (U : IntType) (slice slice' : list T)
  (r w w' : Z) (v : T) (ok : bool) :
  Push U slice r w v = Ok (slice', w', ok) ->
  (ok = false -> slice' = slice /\ w' = w) /\
  (ok = true -> 0 <= w < len slice /\ slice' = <[Z.to_nat w := v]> slice).
Proof.
  unfold Push. destruct (len slice =? 0).
  - intros [= <- <- <-]. split; [done | discriminate].
  - destruct (rem _ _) as [next |]; cbn; [| discriminate].
    destruct (next =? wrap Int r).
    + intros [= <- <- <-]. split; [done | discriminate].
    + destruct (assign slice w v) as [s1 |] eqn:Ha; cbn; [| discriminate].
      intros [= <- <- <-]. split; [discriminate |]. intros _.
      by apply assign_Ok.
Qed.

Lemma Pop_Ok_frame {T : Type} `{ZeroValue T} (U : IntType)
  (slice slice' : list T) (r w r' : Z) (out : T * bool) :
  Pop U slice r w = Ok (slice', r', out) -> slice' = slice.
Proof.
  unfold Pop. destruct (r =? w).
  - by intros [= <- <- <-].
  - destruct (index slice r); cbn; [| discriminate].
    destruct (rem _ _); cbn; [| discriminate].
    by intros [= <- <- <-].
Qed.

(** C8.  Whenever [Push] returns, for cursors of any integer type, the
    store has the length it had and every slot other than the one at the old
    write cursor holds what it held; when it returns false the store and the
    write cursor are as before.  Whenever [Pop] returns, the store is what it
    was, slot by slot.  On the container, [Push] leaves the read cursor and
    [Pop] leaves the write cursor and the store. *)
Theorem Push_Pop_frame {T : Type} `{ZeroValue T}
  (U U' : IntType) (slice slice1 store store2 : list T)
  (r w w1 r' w' r2 : Z) (v v' : T)
  (ok ok' : bool) (out out' : T * bool) (b b1 c c1 : RingBuffer T) :
  Push U slice r w v = Ok (slice1, w1, ok) ->
  Pop U' store r' w' = Ok (store2, r2, out) ->
  RingBuffer_Push b v' = Ok (b1, ok') ->
  RingBuffer_Pop c = Ok (c1, out') ->
  (len slice1 = len slice /\
   (forall i : nat, i <> Z.to_nat w -> slice1 !! i = slice !! i) /\
   (ok = false -> slice1 = slice /\ w1 = w)) /\
  store2 = store /\
  read b1 = read b /\
  (write c1 = write c /\ buffer c1 = buffer c).
Proof.
  intros HPush HPop HbPush HcPop.
  destruct (Push_Ok_frame _ _ _ _ _ _ _ _ HPush) as [Hfalse Htrue].
  repeat split.
  - destruct ok; [destruct (Htrue eq_refl) as [_ ->]
                 | destruct (Hfalse eq_refl) as [-> _]];
      by rewrite ?len_insert.
  - intros i Hi.
    destruct ok; [destruct (Htrue eq_refl) as [_ ->]
                 | destruct (Hfalse eq_refl) as [-> _]]; [| done].
    by apply list_lookup_insert_ne.
  - by apply Hfalse.
  - by apply Hfalse.
  - by apply Pop_Ok_frame in HPop.
  - unfold RingBuffer_Push in HbPush.
    destruct (Push Int (buffer b) (read b) (write b) v')
      as [[[s0 w0] o] |]; cbn in HbPush; [| discriminate].
    by injection HbPush as <- _.
  - unfold RingBuffer_Pop in HcPop.
    destruct (Pop Int (buffer c) (read c) (write c))
      as [[[s0 r0] o] |]; cbn in HcPop; [| discriminate].
    by injection HcPop as <- _.
  - unfold RingBuffer_Pop in HcPop.
    destruct (Pop Int (buffer c) (read c) (write c))
      as [[[s0 r0] o] |] eqn:HP; cbn in HcPop; [| discriminate].
    injection HcPop as <- _. cbn. by apply Pop_Ok_frame in HP.
Qed.

Lemma Push_Pop_frame_witness :
  (Push Uint8 [10; 20; 30; 40] 1 2 7 = Ok ([10; 20; 7; 40], 3, true) /\
   Pop Uint8 [10; 20; 30; 40] 1 2 = Ok ([10; 20; 30; 40], 2, (20, true)) /\
   RingBuffer_Push (mkRingBuffer 1 2 [10; 20; 30; 40]) 7
     = Ok (mkRingBuffer 1 3 [10; 20; 7; 40], true) /\
   RingBuffer_Pop (mkRingBuffer 1 2 [10; 20; 30; 40])
     = Ok (mkRingBuffer 2 2 [10; 20; 30; 40], (20, true))) /\
  ([10; 20; 7; 40] !! 3%nat = [10; 20; 30; 40] !! 3%nat /\
   read (mkRingBuffer 1 3 [10; 20; 7; 40]) = 1 /\
   buffer (mkRingBuffer 2 2 [10; 20; 30; 40]) = [10; 20; 30; 40]).
Proof.
  assert (HP : Push Uint8 [10; 20; 30; 40] 1 2 7
               = Ok ([10; 20; 7; 40], 3, true)) by reflexivity.
  assert (HQ : Pop Uint8 [10; 20; 30; 40] 1 2
               = Ok ([10; 20; 30; 40], 2, (20, true))) by reflexivity.
  assert (HbP : RingBuffer_Push (mkRingBuffer 1 2 [10; 20; 30; 40]) 7
                = Ok (mkRingBuffer 1 3 [10; 20; 7; 40], true))
    by reflexivity.
  assert (HcQ : RingBuffer_Pop (mkRingBuffer 1 2 [10; 20; 30; 40])
                = Ok (mkRingBuffer 2 2 [10; 20; 30; 40], (20, true)))
    by reflexivity.
  split; [by repeat split |].
  destruct (Push_Pop_frame _ _ _ _ _ _ _ _ _ _ _ _ _ _ _ _ _ _ _ _ _ _
              HP HQ HbP HcQ)
    as ((_ & Hslots & _) & _ & Hr & _ & Hb).
  split; [| split; [exact Hr | exact Hb]].
  apply Hslots. cbn. lia.
Defined.

(** ** Safety *)

(** C10.  Under INV1, both cursors inside the store, [Push] and [Pop]
    return: the store is not of length zero, the one store access of [Push],
    at [write], and the one of [Pop], at [read], are in range, and no
    division by zero happens. *)
Theorem Push_Pop_in_bounds {T : Type} `{ZeroValue T}
  (U : IntType) (slice : list T) (r w : Z) (v : T) :
  INV1 slice r w ->
  (exists o, Push U slice r w v = Ok o) /\
  (exists o, Pop U slice r w = Ok o) /\
  (exists slice', assign slice w v = Ok slice') /\
  (exists x, index slice r = Ok x) /\
  len slice <> 0.
Proof.
  intros [Hr Hw]. repeat split.
  - destruct (Push U slice r w v) as [o | p] eqn:HP; [by exists o |].
    apply Push_Panic in HP as (_ & _ & Hout). lia.
  - destruct (Pop U slice r w) as [o | p] eqn:HP; [by exists o |].
    apply Pop_Panic in HP as (_ & _ & Hout). lia.
  - eexists. by apply assign_in_bounds.
  - destruct (lookup_in_bounds slice r Hr) as [x Hx].
    exists x. by apply index_in_bounds.
  - lia.
Qed.

Lemma Push_Pop_in_bounds_witness :
  INV1 [10; 20; 30] 2 0 /\
  (exists o, Push Int8 [10; 20; 30] 2 0 7 = Ok o) /\
  (exists o, Pop Int8 [10; 20; 30] 2 0 = Ok o).
Proof.
  assert (Hinv : INV1 [10; 20; 30] 2 0) by (unfold INV1, len; cbn; lia).
  split; [exact Hinv |].
  destruct (Push_Pop_in_bounds Int8 [10; 20; 30] 2 0 7 Hinv)
    as (HPush & HPop & _).
  by split.
Defined.

(** ** Sequences of calls on the container *)

Section RunFacts.
Context {T : Type} `{ZeroValue T}.
Implicit Types (b : RingBuffer T) (v : T) (vs : list T).

Lemma push_all_room vs : forall b,
  inv b -> count b + len vs <= len (buffer b) - 1 ->
  exists b',
    push_all b vs = Ok (b', replicate (length vs) true) /\ inv b' /\
    count b' = count b + len vs /\ contents b' = contents b ++ vs /\
    len (buffer b') = len (buffer b).
Proof.
  induction vs as [| v vs IH]; intros b Hinv Hroom.
  - exists b. cbn [push_all length replicate]. rewrite app_nil_r.
    do 2 (split; [done |]). split; [rewrite len_nil; lia | done].
  - rewrite len_cons in Hroom. pose proof (len_nonneg vs) as Hvs.
    destruct (RingBuffer_Push_room b v Hinv ltac:(lia))
      as (b1 & HPush & Hinv1 & Hcount1 & Hcontents1 & Hlen1 & _).
    destruct (IH b1 Hinv1 ltac:(lia))
      as (b' & Hall & Hinv' & Hcount' & Hcontents' & Hlen').
    exists b'. cbn [push_all]. rewrite HPush. cbn. rewrite Hall. cbn.
    split; [done |]. split; [done |]. split; [| split].
    + rewrite len_cons. lia.
    + rewrite Hcontents', Hcontents1, <- app_assoc. reflexivity.
    + lia.
Qed.

Lemma pop_n_contents l : forall b rest,
  inv b -> contents b = l ++ rest ->
  exists b',
    pop_n b (length l) = Ok (b', (fun v => (v, true)) <$> l) /\ inv b' /\
    contents b' = rest /\ buffer b' = buffer b.
Proof.
  induction l as [| x l IH]; intros b rest Hinv Hcontents.
  - exists b. by cbn.
  - assert (Hcount : count b <> 0).
    { rewrite <- (contents_length b Hinv), Hcontents. cbn [app].
      rewrite len_cons. pose proof (len_nonneg (l ++ rest)). lia. }
    destruct (RingBuffer_Pop_nonempty b Hinv Hcount)
      as (y & b1 & HPop & Hinv1 & _ & Hcons & Hbuf1 & _).
    rewrite Hcontents in Hcons. cbn [app] in Hcons.
    injection Hcons as <- Hrest.
    destruct (IH b1 rest Hinv1 (eq_sym Hrest))
      as (b' & Hpops & Hinv' & Hcontents' & Hbuf').
    exists b'. cbn [pop_n length]. rewrite HPop. cbn. rewrite Hpops. cbn.
    split; [done |]. split; [done |]. split; [done |].
    by rewrite Hbuf', Hbuf1.
Qed.

Lemma push_all_app vs1 vs2 : forall b b1 oks1 b2 oks2,
  push_all b vs1 = Ok (b1, oks1) -> push_all b1 vs2 = Ok (b2, oks2) ->
  push_all b (vs1 ++ vs2) = Ok (b2, oks1 ++ oks2).
Proof.
  induction vs1 as [| v vs1 IH]; intros b b1 oks1 b2 oks2 H1 H2.
  - cbn in H1. by injection H1 as <- <-.
  - cbn [push_all app] in *.
    destruct (RingBuffer_Push b v) as [[b0 ok] |]; cbn in *; [| discriminate].
    destruct (push_all b0 vs1) as [[b3 oks] |] eqn:Hrest; cbn in *;
      [| discriminate].
    injection H1 as <- <-.
    rewrite (IH b0 b3 oks b2 oks2 Hrest H2). reflexivity.
Qed.

Lemma step_inv b b' : inv b -> step b b' -> inv b'.
Proof.
  intros Hinv Hstep. pose proof (count_bounds b Hinv) as Hbounds.
  inversion Hstep as [b0 v b1 ok HP | b0 b1 out HP]; subst.
  - destruct (Z.eq_dec (count b) (len (buffer b) - 1)) as [Hfull | Hroom].
    + rewrite RingBuffer_Push_full in HP by done. by injection HP as <- _.
    + destruct (RingBuffer_Push_room b v Hinv ltac:(lia))
        as (b1 & HPush & Hinv1 & _).
      rewrite HPush in HP. by injection HP as <- _.
  - destruct (Z.eq_dec (count b) 0) as [Hempty | Hsome].
    + apply (count_zero b Hinv) in Hempty.
      rewrite RingBuffer_Pop_empty in HP by done. by injection HP as <- _.
    + destruct (RingBuffer_Pop_nonempty b Hinv Hsome)
        as (x & b1 & HPop & Hinv1 & _).
      rewrite HPop in HP. by injection HP as <- _.
Qed.

Lemma reachable_inv b : reachable b -> inv b.
Proof.
  induction 1 as [C b Hr HC HN | b b' _ IH Hstep].
  - by destruct (New_inv C b Hr HC HN).
  - by apply (step_inv b b').
Qed.

(** From a reachable state both methods return. *)
Lemma reachable_progress b v :
  reachable b ->
  (exists b' ok, RingBuffer_Push b v = Ok (b', ok)) /\
  (exists b' out, RingBuffer_Pop b = Ok (b', out)).
Proof.
  intros Hreach. pose proof (reachable_inv b Hreach) as Hinv.
  pose proof (count_bounds b Hinv) as Hbounds. split.
  - destruct (Z.eq_dec (count b) (len (buffer b) - 1)) as [Hfull | Hroom].
    + exists b, false. by apply RingBuffer_Push_full.
    + destruct (RingBuffer_Push_room b v Hinv ltac:(lia)) as (b1 & HPush & _).
      by exists b1, true.
  - destruct (Z.eq_dec (count b) 0) as [Hempty | Hsome].
    + apply (count_zero b Hinv) in Hempty.
      exists b, (zero_value, false). by apply RingBuffer_Pop_empty.
    + destruct (RingBuffer_Pop_nonempty b Hinv Hsome) as (x & b1 & HPop & _).
      by exists b1, (x, true).
Qed.
End RunFacts.

Lemma New_count_contents {T : Type} `{ZeroValue T} (C : Z) (b : RingBuffer T) :
  in_range Int C -> 1 <= C -> New C = Ok b ->
  inv b /\ count b = 0 /\ contents b = [] /\ len (buffer b) = C + 1.
Proof.
  intros Hr HC HN.
  destruct (New_inv C b Hr HC HN) as (Hinv & Hlen & Hread & Hwrite).
  assert (Hcount : count b = 0) by (apply (count_zero b Hinv); congruence).
  repeat split; try done; try apply Hinv.
  unfold contents. by rewrite Hcount.
Qed.

(** ** FIFO order *)

(** C1.  For every buffer constructed by [New(C)] with [C >= 1] and all
    values [v1, ..., vn] with [n <= C]: the [n] calls of [Push] all return
    true, and the [n] calls of [Pop] that follow return [v1, ..., vn] in
    this order, each with true. *)
Theorem FIFO_order {T : Type} `{ZeroValue T}
  (C : Z) (b : RingBuffer T) (vs : list T) :
  in_range Int C -> 1 <= C -> New C = Ok b -> len vs <= C ->
  exists b1 b2,
    push_all b vs = Ok (b1, replicate (length vs) true) /\
    pop_n b1 (length vs) = Ok (b2, (fun v => (v, true)) <$> vs).
Proof.
  intros Hr HC HN Hn.
  destruct (New_count_contents C b Hr HC HN) as (Hinv & Hcount & Hnil & Hlen).
  destruct (push_all_room vs b Hinv ltac:(lia))
    as (b1 & Hpush & Hinv1 & _ & Hcontents & _).
  rewrite Hnil in Hcontents. cbn [app] in Hcontents.
  destruct (pop_n_contents vs b1 [] Hinv1) as (b2 & Hpop & _).
  { by rewrite app_nil_r. }
  by exists b1, b2.
Qed.

Lemma FIFO_order_witness :
  (in_range Int 3 /\ 1 <= 3 /\
   New 3 = Ok (mkRingBuffer 0 0 [0; 0; 0; 0]) /\ len [5; 6; 7] <= 3) /\
  exists b1 b2,
    push_all (mkRingBuffer 0 0 [0; 0; 0; 0]) [5; 6; 7]
      = Ok (b1, [true; true; true]) /\
    pop_n b1 3 = Ok (b2, [(5, true); (6, true); (7, true)]).
Proof.
  assert (Hin : in_range Int 3) by (apply in_range_Int; lia).
  assert (HC : 1 <= 3) by lia.
  assert (HN : New 3 = Ok (mkRingBuffer 0 0 [0; 0; 0; 0])) by reflexivity.
  assert (Hn : len [5; 6; 7] <= 3) by (unfold len; cbn; lia).
  split; [by repeat split |].
  exact (FIFO_order 3 (mkRingBuffer 0 0 [0; 0; 0; 0]) [5; 6; 7] Hin HC HN Hn).
Defined.

(** ** The capacity ceiling *)

(** C3.  For every buffer constructed by [New(C)] with [C >= 1], of [C+1]
    calls of [Push] with no [Pop] in between the first [C] return true and
    the last returns false; after them [Len()] and [Cap()] are both [C]. *)
Theorem capacity_ceiling {T : Type} `{ZeroValue T}
  (C : Z) (b : RingBuffer T) (vs : list T) (v : T) :
  in_range Int C -> 1 <= C -> New C = Ok b -> len vs = C ->
  exists b',
    push_all b (vs ++ [v]) = Ok (b', replicate (length vs) true ++ [false]) /\
    RingBuffer_Len b' = C /\ RingBuffer_Cap b' = C.
Proof.
  intros Hr HC HN Hn.
  destruct (New_count_contents C b Hr HC HN) as (Hinv & Hcount & _ & Hlen).
  destruct (push_all_room vs b Hinv ltac:(lia))
    as (b1 & Hpush & Hinv1 & Hcount1 & _ & Hlen1).
  assert (Hfull : count b1 = len (buffer b1) - 1) by lia.
  exists b1. split; [| split].
  - apply (push_all_app vs [v] b b1 _ b1 [false] Hpush).
    cbn [push_all]. rewrite RingBuffer_Push_full by done. reflexivity.
  - rewrite RingBuffer_Len_count by done. lia.
  - rewrite RingBuffer_Cap_len by done. lia.
Qed.

Lemma capacity_ceiling_witness :
  (in_range Int 2 /\ 1 <= 2 /\
   New 2 = Ok (mkRingBuffer 0 0 [0; 0; 0]) /\ len [5; 6] = 2) /\
  exists b',
    push_all (mkRingBuffer 0 0 [0; 0; 0]) [5; 6; 7]
      = Ok (b', [true; true; false]) /\
    RingBuffer_Len b' = 2 /\ RingBuffer_Cap b' = 2.
Proof.
  assert (Hin : in_range Int 2) by (apply in_range_Int; lia).
  assert (HC : 1 <= 2) by lia.
  assert (HN : New 2 = Ok (mkRingBuffer 0 0 [0; 0; 0])) by reflexivity.
  assert (Hn : len [5; 6] = 2) by reflexivity.
  split; [by repeat split |].
  exact (capacity_ceiling 2 (mkRingBuffer 0 0 [0; 0; 0]) [5; 6] 7
           Hin HC HN Hn).
Defined.

(** ** The invariant *)

(** C2.  In every state reached from [New(C)], [C >= 1], by calls of [Push]
    and [Pop], both cursors are inside the store, [Len()] is
    [(write - read) mod len(store)], it lies between 0 and [len(store) - 1],
    and it is at most [Cap()]. *)
Theorem reachable_invariant {T : Type} `{ZeroValue T} (b : RingBuffer T) :
  reachable b ->
  0 <= read b < len (buffer b) /\
  0 <= write b < len (buffer b) /\
  RingBuffer_Len b = (write b - read b) mod len (buffer b) /\
  0 <= RingBuffer_Len b <= len (buffer b) - 1 /\
  RingBuffer_Len b <= RingBuffer_Cap b.
Proof.
  intros Hreach. pose proof (reachable_inv b Hreach) as Hinv.
  pose proof (count_bounds b Hinv) as Hbounds.
  rewrite (RingBuffer_Len_count b Hinv), (RingBuffer_Cap_len b Hinv).
  destruct Hinv as [[Hr Hw] _]. unfold count in *. repeat split; lia.
Qed.

Lemma reachable_invariant_witness :
  reachable (mkRingBuffer 0 1 [5; 0; 0]) /\
  RingBuffer_Len (mkRingBuffer 0 1 [5; 0; 0]) = (1 - 0) mod 3.
Proof.
  assert (Hreach : reachable (mkRingBuffer 0 1 [5; 0; 0])).
  { apply (reachable_step (mkRingBuffer 0 0 [0; 0; 0])).
    - apply (reachable_New 2); [apply in_range_Int; lia | lia | reflexivity].
    - by apply (step_Push _ 5 _ true). }
  split; [exact Hreach |].
  exact (proj1 (proj2 (proj2
    (reachable_invariant (mkRingBuffer 0 1 [5; 0; 0]) Hreach)))).
Defined.

(** * Further properties *)

(** ** The container as a bounded queue *)

Section QueueFacts.
Context {T : Type} `{ZeroValue T}.
Implicit Types (b : RingBuffer T) (v : T).

Lemma reachable_well_formed b : reachable b -> well_formed b.
Proof. intros Hreach. left. by apply reachable_inv. Qed.

Lemma well_formed_Len b :
  well_formed b -> RingBuffer_Len b = len (contents b).
Proof.
  intros [Hinv | ->]; [| reflexivity].
  by rewrite RingBuffer_Len_count, contents_length.
Qed.

Lemma well_formed_Cap b :
  well_formed b -> RingBuffer_Cap b = Z.max (len (buffer b) - 1) 0.
Proof.
  intros [Hinv | ->]; [| reflexivity].
  apply Cap_formula, Hinv.
Qed.

Lemma well_formed_Len_Cap b :
  well_formed b -> 0 <= RingBuffer_Len b <= RingBuffer_Cap b.
Proof.
  intros [Hinv | ->]; [| by vm_compute].
  pose proof (count_bounds b Hinv).
  rewrite RingBuffer_Len_count, RingBuffer_Cap_len by done. lia.
Qed.

Lemma contents_nil_count b : inv b -> (contents b = [] <-> count b = 0).
Proof.
  intros Hinv. rewrite <- (contents_length b Hinv). split.
  - by intros ->.
  - unfold len. destruct (contents b); [done | cbn; lia].
Qed.

(** [Push] on a well formed state is [queue_push] on its contents. *)
Lemma well_formed_Push b v :
  well_formed b ->
  exists b',
    RingBuffer_Push b v
      = Ok (b', (queue_push (RingBuffer_Cap b) (contents b) v).2) /\
    well_formed b' /\
    contents b' = (queue_push (RingBuffer_Cap b) (contents b) v).1 /\
    RingBuffer_Cap b' = RingBuffer_Cap b.
Proof.
  intros [Hinv | ->]; [| by exists RingBuffer_zero; repeat split; right].
  pose proof (count_bounds b Hinv) as Hbounds.
  unfold queue_push.
  rewrite (contents_length b Hinv), (RingBuffer_Cap_len b Hinv).
  destruct (count b <? len (buffer b) - 1) eqn:Hroom;
    [apply Z.ltb_lt in Hroom | apply Z.ltb_ge in Hroom].
  - destruct (RingBuffer_Push_room b v Hinv Hroom)
      as (b' & HPush & Hinv' & _ & Hcontents & Hlen & _).
    exists b'. cbn [fst snd].
    split; [done |]. split; [by left |]. split; [done |].
    rewrite (RingBuffer_Cap_len b' Hinv'). lia.
  - exists b. cbn [fst snd].
    rewrite RingBuffer_Push_full by (done || lia).
    split; [done |]. split; [by left |]. split; [done |].
    by apply RingBuffer_Cap_len.
Qed.

(** [Pop] on a well formed state is [queue_pop] on its contents. *)
Lemma well_formed_Pop b :
  well_formed b ->
  exists b',
    RingBuffer_Pop b = Ok (b', (queue_pop (contents b)).2) /\
    well_formed b' /\
    contents b' = (queue_pop (contents b)).1 /\
    RingBuffer_Cap b' = RingBuffer_Cap b.
Proof.
  intros [Hinv | ->]; [| by exists RingBuffer_zero; repeat split; right].
  destruct (Z.eq_dec (count b) 0) as [Hempty | Hsome].
  - pose proof (proj2 (contents_nil_count b Hinv) Hempty) as Hnil.
    apply (count_zero b Hinv) in Hempty.
    exists b. rewrite Hnil. cbn [queue_pop fst snd].
    rewrite RingBuffer_Pop_empty by done.
    split; [done |]. split; [by left |]. by split.
  - destruct (RingBuffer_Pop_nonempty b Hinv Hsome)
      as (x & b' & HPop & Hinv' & _ & Hcontents & Hbuf & _).
    exists b'. rewrite Hcontents. cbn [queue_pop fst snd].
    split; [done |]. split; [by left |]. split; [done |].
    unfold RingBuffer_Cap. by rewrite Hbuf.
Qed.
End QueueFacts.

(** A state reached from [New(2)] by one [Push], for use in examples. *)
Lemma reachable_one_pushed : reachable (mkRingBuffer 0 1 [5; 0; 0]).
Proof.
  apply (reachable_step (mkRingBuffer 0 0 [0; 0; 0])).
  - apply (reachable_New 2); [apply in_range_Int; lia | lia | reflexivity].
  - by apply (step_Push _ 5 _ true).
Qed.

Lemma step_len {T : Type} `{ZeroValue T} (b b' : RingBuffer T) :
  step b b' -> len (buffer b') = len (buffer b).
Proof.
  inversion 1 as [b0 v b1 ok HP | b0 b1 out HP]; subst.
  - unfold RingBuffer_Push in HP.
    destruct (Push Int (buffer b) (read b) (write b) v)
      as [[[s0 w0] o] |] eqn:HPush; cbn in HP; [| discriminate].
    injection HP as <- <-. cbn [buffer].
    destruct (Push_Ok_frame _ _ _ _ _ _ _ _ HPush) as [Hfalse Htrue].
    destruct o; [destruct (Htrue eq_refl) as [_ ->]
                | destruct (Hfalse eq_refl) as [-> _]];
      by rewrite ?len_insert.
  - unfold RingBuffer_Pop in HP.
    destruct (Pop Int (buffer b) (read b) (write b))
      as [[[s0 r0] o] |] eqn:HPop; cbn in HP; [| discriminate].
    injection HP as <- <-. cbn [buffer].
    by rewrite (Pop_Ok_frame _ _ _ _ _ _ _ HPop).
Qed.

(** X1.  The buffer is fixed in length.  Whatever calls of [Push] and [Pop]
    follow [New(C)], [C >= 1], the store keeps its [C+1] slots and [Cap()]
    stays [C]. *)
Theorem Cap_fixed {T : Type} `{ZeroValue T} (C : Z) (b b' : RingBuffer T) :
  in_range Int C -> 1 <= C -> New C = Ok b -> rtc step b b' ->
  len (buffer b') = C + 1 /\ RingBuffer_Cap b' = C.
Proof.
  intros Hr HC HN Hsteps.
  destruct (New_Ok C b Hr HC HN) as [Hlt _].
  destruct (New_inv C b Hr HC HN) as (_ & Hlen & _).
  assert (Hlen' : len (buffer b') = C + 1).
  { rewrite <- Hlen. clear Hlen HN.
    induction Hsteps as [| b0 b1 b2 Hstep _ IH]; [done |].
    rewrite IH. by apply step_len. }
  split; [done |]. unfold RingBuffer_Cap.
  rewrite Cap_formula by lia. lia.
Qed.

Lemma Cap_fixed_witness :
  (in_range Int 2 /\ 1 <= 2 /\ New 2 = Ok (mkRingBuffer 0 0 [0; 0; 0]) /\
   rtc step (mkRingBuffer 0 0 [0; 0; 0]) (mkRingBuffer 0 1 [5; 0; 0])) /\
  RingBuffer_Cap (mkRingBuffer 0 1 [5; 0; 0]) = 2.
Proof.
  assert (Hin : in_range Int 2) by (apply in_range_Int; lia).
  assert (HC : 1 <= 2) by lia.
  assert (HN : New 2 = Ok (mkRingBuffer 0 0 [0; 0; 0])) by reflexivity.
  assert (Hsteps : rtc step (mkRingBuffer 0 0 [0; 0; 0])
                     (mkRingBuffer 0 1 [5; 0; 0])).
  { apply rtc_once. by apply (step_Push _ 5 _ true). }
  split; [by repeat split |].
  exact (proj2 (Cap_fixed 2 _ _ Hin HC HN Hsteps)).
Defined.

Lemma reachable_Cap_positive {T : Type} `{ZeroValue T} (b : RingBuffer T) :
  reachable b -> 1 <= RingBuffer_Cap b.
Proof.
  intros Hreach.
  assert (Hlen : 2 <= len (buffer b)).
  { induction Hreach as [C b Hr HC HN | b b' _ IH Hstep].
    - destruct (New_inv C b Hr HC HN) as (_ & Hlen & _). lia.
    - by rewrite (step_len b b'). }
  rewrite RingBuffer_Cap_len by (by apply reachable_inv). lia.
Qed.

(** ** Full and empty *)

(** X2.  [Push] fails exactly on a full buffer.  On a well formed state,
    [Push] returns false if and only if [Len() = Cap()]; then the state is
    unchanged. *)
Theorem Push_false_iff_full {T : Type} `{ZeroValue T}
  (b b' : RingBuffer T) (v : T) (ok : bool) :
  well_formed b -> RingBuffer_Push b v = Ok (b', ok) ->
  (ok = false <-> RingBuffer_Len b = RingBuffer_Cap b) /\
  (ok = false -> b' = b).
Proof.
  intros Hwf HPush.
  pose proof (well_formed_Len_Cap b Hwf) as Hbounds.
  pose proof (well_formed_Len b Hwf) as HLen.
  destruct (well_formed_Push b v Hwf) as (b1 & HPush1 & _).
  rewrite HPush in HPush1. injection HPush1 as <- ->.
  unfold queue_push. rewrite <- HLen.
  destruct (RingBuffer_Len b <? RingBuffer_Cap b) eqn:Hroom;
    [apply Z.ltb_lt in Hroom | apply Z.ltb_ge in Hroom]; cbn [snd].
  - split; [split; [discriminate | lia] | discriminate].
  - split; [split; [lia | done] |]. intros _.
    destruct Hwf as [Hinv | ->].
    + rewrite RingBuffer_Push_full in HPush; [by injection HPush |done |].
      rewrite <- (RingBuffer_Len_count b Hinv).
      rewrite <- (RingBuffer_Cap_len b Hinv). lia.
    + by injection HPush.
Qed.

Lemma Push_false_iff_full_witness :
  (well_formed (mkRingBuffer 0 2 [5; 6; 0]) /\
   RingBuffer_Push (mkRingBuffer 0 2 [5; 6; 0]) 7
     = Ok (mkRingBuffer 0 2 [5; 6; 0], false)) /\
  RingBuffer_Len (mkRingBuffer 0 2 [5; 6; 0])
    = RingBuffer_Cap (mkRingBuffer 0 2 [5; 6; 0]).
Proof.
  assert (Hwf : well_formed (mkRingBuffer 0 2 [5; 6; 0])).
  { left. unfold inv, INV1, len. rewrite max_int_Int. cbn. lia. }
  assert (HPush : RingBuffer_Push (mkRingBuffer 0 2 [5; 6; 0]) 7
                  = Ok (mkRingBuffer 0 2 [5; 6; 0], false)) by reflexivity.
  split; [by split |].
  exact (proj1 (proj1 (Push_false_iff_full _ _ _ _ Hwf HPush)) eq_refl).
Defined.

(** X3.  [Pop] fails exactly on an empty buffer.  On a well formed state,
    [Pop] returns false if and only if [Len() = 0]; then it returns the zero
    value and the state is unchanged. *)
Theorem Pop_false_iff_empty {T : Type} `{ZeroValue T}
  (b b' : RingBuffer T) (x : T) (ok : bool) :
  well_formed b -> RingBuffer_Pop b = Ok (b', (x, ok)) ->
  (ok = false <-> RingBuffer_Len b = 0) /\
  (ok = false -> x = zero_value /\ b' = b).
Proof.
  intros Hwf HPop.
  pose proof (well_formed_Len b Hwf) as HLen.
  destruct (well_formed_Pop b Hwf) as (b1 & HPop1 & _ & Hcontents & _).
  rewrite HPop in HPop1. injection HPop1 as <- Hout.
  destruct (contents b) as [| y l] eqn:Hc; cbn in Hout, Hcontents.
  - injection Hout as -> ->. rewrite HLen.
    split; [by split |]. intros _. split; [done |].
    destruct Hwf as [Hinv | ->]; [| by injection HPop].
    rewrite RingBuffer_Pop_empty in HPop; [by injection HPop |].
    apply (count_zero b Hinv). by apply contents_nil_count.
  - injection Hout as -> ->. rewrite HLen, len_cons.
    pose proof (len_nonneg l).
    split; [split; [discriminate | lia] | discriminate].
Qed.

Lemma Pop_false_iff_empty_witness :
  (well_formed (mkRingBuffer 2 2 [5; 6; 0]) /\
   RingBuffer_Pop (mkRingBuffer 2 2 [5; 6; 0])
     = Ok (mkRingBuffer 2 2 [5; 6; 0], (0, false))) /\
  RingBuffer_Len (mkRingBuffer 2 2 [5; 6; 0]) = 0.
Proof.
  assert (Hwf : well_formed (mkRingBuffer 2 2 [5; 6; 0])).
  { left. unfold inv, INV1, len. rewrite max_int_Int. cbn. lia. }
  assert (HPop : RingBuffer_Pop (mkRingBuffer 2 2 [5; 6; 0])
                 = Ok (mkRingBuffer 2 2 [5; 6; 0], (0, false)))
    by reflexivity.
  split; [by split |].
  exact (proj1 (proj1 (Pop_false_iff_empty _ _ _ _ Hwf HPop)) eq_refl).
Defined.

(** X4.  Full and empty exclude each other.  In a state reached from
    [New(C)], [C >= 1], [Push] and [Pop] do not both fail. *)
Theorem not_full_and_empty {T : Type} `{ZeroValue T}
  (b b1 b2 : RingBuffer T) (v x : T) (ok1 ok2 : bool) :
  reachable b ->
  RingBuffer_Push b v = Ok (b1, ok1) ->
  RingBuffer_Pop b = Ok (b2, (x, ok2)) ->
  ok1 = true \/ ok2 = true.
Proof.
  intros Hreach HPush HPop.
  pose proof (reachable_Cap_positive b Hreach) as Hcap.
  pose proof (reachable_well_formed b Hreach) as Hwf.
  destruct (well_formed_Push b v Hwf) as (b1' & HPush' & _).
  destruct (well_formed_Pop b Hwf) as (b2' & HPop' & _).
  rewrite HPush in HPush'. injection HPush' as _ ->.
  rewrite HPop in HPop'. injection HPop' as _ Hout.
  unfold queue_push.
  destruct (contents b) as [| y l]; cbn in Hout |- *;
    injection Hout as -> ->; [left | by right].
  rewrite len_nil. by rewrite (proj2 (Z.ltb_lt 0 _)) by lia.
Qed.

Lemma not_full_and_empty_witness :
  (reachable (mkRingBuffer 0 1 [5; 0; 0]) /\
   RingBuffer_Push (mkRingBuffer 0 1 [5; 0; 0]) 6
     = Ok (mkRingBuffer 0 2 [5; 6; 0], true) /\
   RingBuffer_Pop (mkRingBuffer 0 1 [5; 0; 0])
     = Ok (mkRingBuffer 1 1 [5; 0; 0], (5, true))) /\
  (true = true \/ true = true).
Proof.
  assert (HPush : RingBuffer_Push (mkRingBuffer 0 1 [5; 0; 0]) 6
                  = Ok (mkRingBuffer 0 2 [5; 6; 0], true)) by reflexivity.
  assert (HPop : RingBuffer_Pop (mkRingBuffer 0 1 [5; 0; 0])
                 = Ok (mkRingBuffer 1 1 [5; 0; 0], (5, true))) by reflexivity.
  split; [by repeat split; try apply reachable_one_pushed |].
  exact (not_full_and_empty _ _ _ _ _ _ _ reachable_one_pushed HPush HPop).
Defined.

(** ** Counting *)

(** X5.  A successful [Push] adds one to [Len()], a failed one leaves it;
    [Cap()] is unchanged either way. *)
Theorem Push_Len {T : Type} `{ZeroValue T}
  (b b' : RingBuffer T) (v : T) (ok : bool) :
  well_formed b -> RingBuffer_Push b v = Ok (b', ok) ->
  RingBuffer_Len b' = RingBuffer_Len b + (if ok then 1 else 0) /\
  RingBuffer_Cap b' = RingBuffer_Cap b.
Proof.
  intros Hwf HPush.
  destruct (well_formed_Push b v Hwf)
    as (b1 & HPush1 & Hwf1 & Hcontents & Hcap).
  rewrite HPush in HPush1. injection HPush1 as <- ->.
  split; [| done].
  rewrite (well_formed_Len b' Hwf1), (well_formed_Len b Hwf), Hcontents.
  unfold queue_push. destruct (_ <? _); cbn [fst snd]; [| lia].
  unfold len. rewrite length_app. cbn. lia.
Qed.

Lemma Push_Len_witness :
  (well_formed (mkRingBuffer 2 0 [0; 6; 5]) /\
   RingBuffer_Push (mkRingBuffer 2 0 [0; 6; 5]) 7
     = Ok (mkRingBuffer 2 1 [7; 6; 5], true)) /\
  RingBuffer_Len (mkRingBuffer 2 1 [7; 6; 5])
    = RingBuffer_Len (mkRingBuffer 2 0 [0; 6; 5]) + 1.
Proof.
  assert (Hwf : well_formed (mkRingBuffer 2 0 [0; 6; 5])).
  { left. unfold inv, INV1, len. rewrite max_int_Int. cbn. lia. }
  assert (HPush : RingBuffer_Push (mkRingBuffer 2 0 [0; 6; 5]) 7
                  = Ok (mkRingBuffer 2 1 [7; 6; 5], true)) by reflexivity.
  split; [by split |].
  exact (proj1 (Push_Len _ _ _ _ Hwf HPush)).
Defined.

(** X6.  A successful [Pop] takes one from [Len()], a failed one leaves it;
    [Cap()] is unchanged either way. *)
Theorem Pop_Len {T : Type} `{ZeroValue T}
  (b b' : RingBuffer T) (x : T) (ok : bool) :
  well_formed b -> RingBuffer_Pop b = Ok (b', (x, ok)) ->
  RingBuffer_Len b' = RingBuffer_Len b - (if ok then 1 else 0) /\
  RingBuffer_Cap b' = RingBuffer_Cap b.
Proof.
  intros Hwf HPop.
  destruct (well_formed_Pop b Hwf) as (b1 & HPop1 & Hwf1 & Hcontents & Hcap).
  rewrite HPop in HPop1. injection HPop1 as <- Hout.
  split; [| done].
  rewrite (well_formed_Len b' Hwf1), (well_formed_Len b Hwf), Hcontents.
  destruct (contents b) as [| y l]; cbn in Hout |- *; injection Hout as -> ->.
  - lia.
  - rewrite len_cons. lia.
Qed.

Lemma Pop_Len_witness :
  (well_formed (mkRingBuffer 2 1 [7; 6; 5]) /\
   RingBuffer_Pop (mkRingBuffer 2 1 [7; 6; 5])
     = Ok (mkRingBuffer 0 1 [7; 6; 5], (5, true))) /\
  RingBuffer_Len (mkRingBuffer 0 1 [7; 6; 5])
    = RingBuffer_Len (mkRingBuffer 2 1 [7; 6; 5]) - 1.
Proof.
  assert (Hwf : well_formed (mkRingBuffer 2 1 [7; 6; 5])).
  { left. unfold inv, INV1, len. rewrite max_int_Int. cbn. lia. }
  assert (HPop : RingBuffer_Pop (mkRingBuffer 2 1 [7; 6; 5])
                 = Ok (mkRingBuffer 0 1 [7; 6; 5], (5, true))) by reflexivity.
  split; [by split |].
  exact (proj1 (Pop_Len _ _ _ _ Hwf HPop)).
Defined.

(** ** Any interleaving is first in, first out *)

Section RunQueueFacts.
Context {T : Type} `{ZeroValue T}.
Implicit Types (b : RingBuffer T) (v : T) (vs : list T).

Lemma well_formed_free b :
  well_formed b -> Z.of_nat (free b) = RingBuffer_Cap b - len (contents b).
Proof.
  intros Hwf. pose proof (well_formed_Len_Cap b Hwf).
  unfold free. rewrite <- (well_formed_Len b Hwf). lia.
Qed.

Lemma push_all_well_formed vs : forall b,
  well_formed b ->
  exists b',
    push_all b vs
      = Ok (b', replicate (length vs `min` free b) true
                  ++ replicate (length vs - free b) false) /\
    well_formed b' /\
    contents b' = contents b ++ take (free b) vs /\
    RingBuffer_Cap b' = RingBuffer_Cap b.
Proof.
  induction vs as [| v vs IH]; intros b Hwf.
  - exists b. cbn. rewrite take_nil, app_nil_r. by repeat split.
  - pose proof (well_formed_free b Hwf) as Hfree.
    destruct (well_formed_Push b v Hwf)
      as (b1 & HPush & Hwf1 & Hcontents1 & Hcap1).
    destruct (IH b1 Hwf1) as (b' & Hall & Hwf' & Hcontents' & Hcap').
    pose proof (well_formed_free b1 Hwf1) as Hfree1.
    exists b'. cbn [push_all]. rewrite HPush. cbn. rewrite Hall. cbn.
    unfold queue_push in *.
    destruct (len (contents b) <? RingBuffer_Cap b) eqn:Hroom;
      [apply Z.ltb_lt in Hroom | apply Z.ltb_ge in Hroom];
      cbn [fst snd] in *.
    + assert (Hf : free b = S (free b1)).
      { rewrite Hcontents1, Hcap1 in Hfree1. unfold len in Hfree1 at 1.
        rewrite length_app in Hfree1. cbn in Hfree1. unfold len in Hfree.
        lia. }
      rewrite Hf. cbn [length Nat.min replicate app firstn take Nat.sub].
      split; [done |]. split; [done |]. split; [| lia].
      rewrite Hcontents', Hcontents1, <- app_assoc. reflexivity.
    + assert (Hf : free b = 0%nat) by lia.
      assert (Hf1 : free b1 = 0%nat)
        by (rewrite Hcontents1, Hcap1 in Hfree1; lia).
      rewrite Hf, Hf1 in *. rewrite Nat.min_0_r, Nat.sub_0_r in *.
      cbn [length Nat.min replicate app firstn take Nat.sub] in *.
      rewrite take_0 in *. rewrite app_nil_r in *.
      split; [done |]. split; [done |]. split; [congruence | lia].
Qed.

Lemma pop_n_well_formed n : forall b,
  well_formed b ->
  exists b',
    pop_n b n
      = Ok (b', ((fun v => (v, true)) <$> take n (contents b))
                  ++ replicate (n - length (contents b)) (zero_value, false)) /\
    well_formed b' /\
    contents b' = drop n (contents b) /\
    RingBuffer_Cap b' = RingBuffer_Cap b.
Proof.
  induction n as [| n IH]; intros b Hwf.
  - exists b. cbn. rewrite drop_0. by repeat split.
  - destruct (well_formed_Pop b Hwf) as (b1 & HPop & Hwf1 & Hcontents1 & Hcap1).
    destruct (IH b1 Hwf1) as (b' & Hpops & Hwf' & Hcontents' & Hcap').
    exists b'. cbn [pop_n]. rewrite HPop. cbn. rewrite Hpops. cbn.
    rewrite Hcontents', Hcontents1.
    destruct (contents b) as [| x l]; cbn.
    + rewrite take_nil, drop_nil. cbn. rewrite Nat.sub_0_r.
      split; [done |]. split; [done |]. split; [done | lia].
    + split; [done |]. split; [done |]. split; [done | lia].
Qed.
End RunQueueFacts.

(** X7.  [Push] appends.  On a well formed state a successful [Push] puts
    the value behind the stored elements, and a failed one leaves them. *)
Theorem Push_appends {T : Type} `{ZeroValue T}
  (b b' : RingBuffer T) (v : T) (ok : bool) :
  well_formed b -> RingBuffer_Push b v = Ok (b', ok) ->
  well_formed b' /\ contents b' = contents b ++ (if ok then [v] else []).
Proof.
  intros Hwf HPush.
  destruct (well_formed_Push b v Hwf) as (b1 & HPush1 & Hwf1 & Hcontents & _).
  rewrite HPush in HPush1. injection HPush1 as <- ->.
  split; [done |]. rewrite Hcontents. unfold queue_push.
  destruct (_ <? _); cbn [fst snd]; by rewrite ?app_nil_r.
Qed.

Lemma Push_appends_witness :
  (well_formed (mkRingBuffer 2 0 [0; 6; 5]) /\
   RingBuffer_Push (mkRingBuffer 2 0 [0; 6; 5]) 7
     = Ok (mkRingBuffer 2 1 [7; 6; 5], true)) /\
  contents (mkRingBuffer 2 1 [7; 6; 5])
    = contents (mkRingBuffer 2 0 [0; 6; 5]) ++ [7].
Proof.
  assert (Hwf : well_formed (mkRingBuffer 2 0 [0; 6; 5])).
  { left. unfold inv, INV1, len. rewrite max_int_Int. cbn. lia. }
  assert (HPush : RingBuffer_Push (mkRingBuffer 2 0 [0; 6; 5]) 7
                  = Ok (mkRingBuffer 2 1 [7; 6; 5], true)) by reflexivity.
  split; [by split |].
  exact (proj2 (Push_appends _ _ _ _ Hwf HPush)).
Defined.

(** X8.  [Pop] takes the oldest.  On a well formed state a successful [Pop]
    returns the first of the stored elements and leaves the others in their
    order; a failed one finds none stored. *)
Theorem Pop_takes_oldest {T : Type} `{ZeroValue T}
  (b b' : RingBuffer T) (x : T) (ok : bool) :
  well_formed b -> RingBuffer_Pop b = Ok (b', (x, ok)) ->
  well_formed b' /\ contents b = (if ok then [x] else []) ++ contents b' /\
  (ok = false -> contents b = []).
Proof.
  intros Hwf HPop.
  destruct (well_formed_Pop b Hwf) as (b1 & HPop1 & Hwf1 & Hcontents & _).
  rewrite HPop in HPop1. injection HPop1 as <- Hout.
  split; [done |]. rewrite Hcontents.
  destruct (contents b) as [| y l]; cbn in Hout |- *;
    injection Hout as -> ->; by split.
Qed.

Lemma Pop_takes_oldest_witness :
  (well_formed (mkRingBuffer 2 1 [7; 6; 5]) /\
   RingBuffer_Pop (mkRingBuffer 2 1 [7; 6; 5])
     = Ok (mkRingBuffer 0 1 [7; 6; 5], (5, true))) /\
  contents (mkRingBuffer 2 1 [7; 6; 5])
    = [5] ++ contents (mkRingBuffer 0 1 [7; 6; 5]).
Proof.
  assert (Hwf : well_formed (mkRingBuffer 2 1 [7; 6; 5])).
  { left. unfold inv, INV1, len. rewrite max_int_Int. cbn. lia. }
  assert (HPop : RingBuffer_Pop (mkRingBuffer 2 1 [7; 6; 5])
                 = Ok (mkRingBuffer 0 1 [7; 6; 5], (5, true))) by reflexivity.
  split; [by split |].
  exact (proj1 (proj2 (Pop_takes_oldest _ _ _ _ Hwf HPop))).
Defined.

(** X9.  Pushing past the capacity.  Of any number of [Push] calls in a row
    on a well formed state, as many succeed as there is room,
    [Cap() - Len()], and all the following fail; [Len()] grows by the number
    that succeeded. *)
Theorem push_all_saturates {T : Type} `{ZeroValue T}
  (b : RingBuffer T) (vs : list T) :
  well_formed b ->
  exists b',
    push_all b vs
      = Ok (b', replicate (length vs `min` free b) true
                  ++ replicate (length vs - free b) false) /\
    RingBuffer_Len b'
      = RingBuffer_Len b + Z.of_nat (length vs `min` free b) /\
    contents b' = contents b ++ take (free b) vs.
Proof.
  intros Hwf.
  destruct (push_all_well_formed vs b Hwf)
    as (b' & Hall & Hwf' & Hcontents & _).
  exists b'. split; [done |]. split; [| done].
  rewrite (well_formed_Len b' Hwf'), (well_formed_Len b Hwf), Hcontents.
  unfold len. rewrite length_app, length_take. lia.
Qed.

Lemma push_all_saturates_witness :
  well_formed (mkRingBuffer 2 0 [0; 6; 5]) /\
  exists b',
    push_all (mkRingBuffer 2 0 [0; 6; 5]) [7; 8; 9]
      = Ok (b', [true; false; false]) /\
    RingBuffer_Len b' = 1 + 1 /\
    contents b' = [5; 7].
Proof.
  assert (Hwf : well_formed (mkRingBuffer 2 0 [0; 6; 5])).
  { left. unfold inv, INV1, len. rewrite max_int_Int. cbn. lia. }
  split; [exact Hwf |].
  exact (push_all_saturates (mkRingBuffer 2 0 [0; 6; 5]) [7; 8; 9] Hwf).
Defined.

(** X10.  Popping past the end.  Any number [n] of [Pop] calls in a row on a
    well formed state return the stored elements, oldest first, each with
    true, and once these are used up the zero value with false. *)
Theorem pop_n_exhausts {T : Type} `{ZeroValue T}
  (b : RingBuffer T) (n : nat) :
  well_formed b ->
  exists b',
    pop_n b n
      = Ok (b', ((fun v => (v, true)) <$> take n (contents b))
                  ++ replicate (n - length (contents b)) (zero_value, false)) /\
    contents b' = drop n (contents b) /\
    len (contents b) = RingBuffer_Len b.
Proof.
  intros Hwf.
  destruct (pop_n_well_formed n b Hwf) as (b' & Hpops & _ & Hcontents & _).
  exists b'. split; [done |]. split; [done |].
  symmetry. by apply well_formed_Len.
Qed.

Lemma pop_n_exhausts_witness :
  well_formed (mkRingBuffer 2 1 [7; 6; 5]) /\
  exists b',
    pop_n (mkRingBuffer 2 1 [7; 6; 5]) 3
      = Ok (b', [(5, true); (7, true); (0, false)]) /\
    contents b' = [] /\
    len [5; 7] = RingBuffer_Len (mkRingBuffer 2 1 [7; 6; 5]).
Proof.
  assert (Hwf : well_formed (mkRingBuffer 2 1 [7; 6; 5])).
  { left. unfold inv, INV1, len. rewrite max_int_Int. cbn. lia. }
  split; [exact Hwf |].
  exact (pop_n_exhausts (mkRingBuffer 2 1 [7; 6; 5]) 3 Hwf).
Defined.

(** X11.  First in, first out from any state.  On a well formed state holding
    [k] elements, wherever its cursors are, [n] values that fit are all
    accepted, and [k + n] calls of [Pop] then return the [k] elements and
    the [n] values in the order of their arrival, leaving [Len() = 0]. *)
Theorem FIFO_from_any_state {T : Type} `{ZeroValue T}
  (b : RingBuffer T) (vs : list T) :
  well_formed b -> (length vs <= free b)%nat ->
  exists b1 b2,
    push_all b vs = Ok (b1, replicate (length vs) true) /\
    pop_n b1 (length (contents b) + length vs)
      = Ok (b2, (fun v => (v, true)) <$> (contents b ++ vs)) /\
    RingBuffer_Len b2 = 0.
Proof.
  intros Hwf Hfit.
  destruct (push_all_well_formed vs b Hwf)
    as (b1 & Hall & Hwf1 & Hcontents1 & _).
  destruct (pop_n_well_formed (length (contents b) + length vs) b1 Hwf1)
    as (b2 & Hpops & Hwf2 & Hcontents2 & _).
  exists b1, b2.
  rewrite Nat.min_l in Hall by done.
  replace (length vs - free b)%nat with 0%nat in Hall by lia.
  rewrite take_ge in Hcontents1 by done.
  cbn [replicate] in Hall. rewrite app_nil_r in Hall.
  rewrite Hcontents1 in Hpops, Hcontents2.
  rewrite take_ge in Hpops by (rewrite length_app; lia).
  rewrite drop_ge in Hcontents2 by (rewrite length_app; lia).
  replace (length (contents b) + length vs - length (contents b ++ vs))%nat
    with 0%nat in Hpops by (rewrite length_app; lia).
  cbn [replicate] in Hpops. rewrite app_nil_r in Hpops.
  split; [done |]. split; [done |].
  by rewrite (well_formed_Len b2 Hwf2), Hcontents2.
Qed.

Lemma FIFO_from_any_state_witness :
  (well_formed (mkRingBuffer 3 0 [0; 0; 0; 9]) /\
   (length [7; 8] <= free (mkRingBuffer 3 0 [0; 0; 0; 9]))%nat) /\
  exists b1 b2,
    push_all (mkRingBuffer 3 0 [0; 0; 0; 9]) [7; 8] = Ok (b1, [true; true]) /\
    pop_n b1 3 = Ok (b2, [(9, true); (7, true); (8, true)]) /\
    RingBuffer_Len b2 = 0.
Proof.
  assert (Hwf : well_formed (mkRingBuffer 3 0 [0; 0; 0; 9])).
  { left. unfold inv, INV1, len. rewrite max_int_Int. cbn. lia. }
  assert (Hfit : (length [7; 8] <= free (mkRingBuffer 3 0 [0; 0; 0; 9]))%nat)
    by (vm_compute; lia).
  split; [by split |].
  exact (FIFO_from_any_state (mkRingBuffer 3 0 [0; 0; 0; 9]) [7; 8] Hwf Hfit).
Defined.

(** ** The generic functions with narrow cursors *)

Lemma fitting_cursor {T : Type} (U : IntType) (slice : list T) (c : Z) :
  store_fits U slice -> 0 <= c < len slice -> cursor_value U c.
Proof.
  intros [HI HU] Hc. pose proof (min_int_nonpos U).
  unfold cursor_value, in_range. lia.
Qed.

Lemma inv_intro {T : Type} (slice : list T) (r w : Z) :
  0 <= r < len slice -> 0 <= w < len slice -> len slice <= max_int Int ->
  inv (mkRingBuffer r w slice).
Proof. intros Hr Hw HI. by split. Qed.

(** X12.  The cursor type is immaterial.  On a store all of whose indices are
    values of both [U] and [U'], and cursors inside the store, [Push], [Pop]
    and [Len] do with cursors of type [U] what they do with cursors of type
    [U']. *)
Theorem cursor_type_immaterial {T : Type} `{ZeroValue T}
  (U U' : IntType) (slice : list T) (r w : Z) (v : T) :
  store_fits U slice -> store_fits U' slice -> INV1 slice r w ->
  Push U slice r w v = Push U' slice r w v /\
  Pop U slice r w = Pop U' slice r w /\
  Len U slice r w = Len U' slice r w.
Proof.
  intros Hfits Hfits' [Hr Hw].
  destruct (fitting_cursor U slice r Hfits Hr) as [HUr HIr].
  destruct (fitting_cursor U' slice r Hfits' Hr) as [HU'r _].
  destruct (fitting_cursor U slice w Hfits Hw) as [HUw HIw].
  destruct (fitting_cursor U' slice w Hfits' Hw) as [HU'w _].
  split; [| split].
  - by rewrite !Push_in_bounds.
  - destruct (Z.eq_dec r w) as [-> | Hne]; [by rewrite !Pop_empty |].
    destruct (lookup_in_bounds slice r Hr) as [x Hx].
    by rewrite !(Pop_in_bounds _ slice r w x).
  - rewrite !Len_nonneg_cursors; try done; apply Hfits.
Qed.

Lemma cursor_type_immaterial_witness :
  (store_fits Int8 [10; 20; 30] /\ store_fits Uint64 [10; 20; 30] /\
   INV1 [10; 20; 30] 2 1) /\
  Push Int8 [10; 20; 30] 2 1 7 = Push Uint64 [10; 20; 30] 2 1 7.
Proof.
  assert (H8 : store_fits Int8 [10; 20; 30])
    by (unfold store_fits, len; cbn; lia).
  assert (H64 : store_fits Uint64 [10; 20; 30])
    by (unfold store_fits, len; cbn; lia).
  assert (Hinv : INV1 [10; 20; 30] 2 1) by (unfold INV1, len; cbn; lia).
  split; [by repeat split |].
  exact (proj1 (cursor_type_immaterial Int8 Uint64 _ 2 1 7 H8 H64 Hinv)).
Defined.

(** X13.  The generic [Push] keeps INV1.  On a store whose indices are values
    of the cursor type and cursors inside it, [Push] returns, its new write
    cursor is inside the store, the store keeps its length, and [Len] has
    grown by one if it returned true and is unchanged otherwise, never
    exceeding [Cap]. *)
Theorem Push_keeps_INV1 {T : Type}
  (U : IntType) (slice : list T) (r w : Z) (v : T) :
  store_fits U slice -> INV1 slice r w ->
  exists slice' w' ok,
    Push U slice r w v = Ok (slice', w', ok) /\
    INV1 slice' r w' /\ len slice' = len slice /\
    Len U slice' r w' = Len U slice r w + (if ok then 1 else 0) /\
    0 <= Len U slice' r w' <= Cap slice'.
Proof.
  intros Hfits [Hr Hw].
  destruct (fitting_cursor U slice r Hfits Hr) as [HUr HIr].
  destruct (fitting_cursor U slice w Hfits Hw) as [HUw HIw].
  pose proof Hfits as [HI HU].
  pose proof (inv_intro slice r w Hr Hw HI) as Hinv.
  pose proof (count_bounds _ Hinv) as Hbounds.
  pose proof (count_formula _ Hinv) as Hformula.
  cbn [read write buffer] in Hbounds, Hformula.
  rewrite Push_in_bounds by done.
  assert (HLen : Len U slice r w = count (mkRingBuffer r w slice)).
  { rewrite Hformula. by apply Len_nonneg_cursors. }
  destruct ((w + 1) mod len slice =? r) eqn:Hnext;
    [apply Z.eqb_eq in Hnext | apply Z.eqb_neq in Hnext].
  - exists slice, w, false. rewrite Cap_formula by done.
    repeat split; try done; lia.
  - pose proof (count_after_Push _ Hinv Hnext) as Hafter.
    cbn [read write buffer] in Hafter.
    assert (Hw' : 0 <= (w + 1) mod len slice < len slice)
      by (apply Z.mod_pos_bound; lia).
    assert (Hinv' : inv (mkRingBuffer r ((w + 1) mod len slice)
                           (<[Z.to_nat w := v]> slice)))
      by (apply inv_intro; rewrite len_insert; lia).
    pose proof (count_bounds _ Hinv') as Hbounds'.
    pose proof (count_formula _ Hinv') as Hformula'.
    cbn [read write buffer] in Hbounds', Hformula'.
    rewrite len_insert in Hbounds'.
    assert (HLen' : Len U (<[Z.to_nat w := v]> slice) r
                      ((w + 1) mod len slice)
                    = count (mkRingBuffer r ((w + 1) mod len slice)
                               (<[Z.to_nat w := v]> slice))).
    { rewrite Hformula'. apply Len_nonneg_cursors; try done.
      - by rewrite len_insert.
      - pose proof (min_int_nonpos U). unfold in_range. lia.
      - lia. }
    assert (Hcount' : count (mkRingBuffer r ((w + 1) mod len slice)
                               (<[Z.to_nat w := v]> slice))
                      = count (mkRingBuffer r w slice) + 1).
    { unfold count. cbn [read write buffer]. by rewrite len_insert. }
    exists (<[Z.to_nat w := v]> slice), ((w + 1) mod len slice), true.
    rewrite Cap_formula by (by rewrite len_insert).
    rewrite HLen', HLen, Hcount'. rewrite Hcount' in Hbounds'.
    unfold INV1. rewrite !len_insert.
    repeat split; try done; lia.
Qed.

Lemma Push_keeps_INV1_witness :
  (store_fits Uint8 [10; 20; 30] /\ INV1 [10; 20; 30] 1 2) /\
  exists slice' w' ok,
    Push Uint8 [10; 20; 30] 1 2 7 = Ok (slice', w', ok) /\
    INV1 slice' 1 w' /\ len slice' = len [10; 20; 30] /\
    Len Uint8 slice' 1 w'
      = Len Uint8 [10; 20; 30] 1 2 + (if ok then 1 else 0) /\
    0 <= Len Uint8 slice' 1 w' <= Cap slice'.
Proof.
  assert (Hfits : store_fits Uint8 [10; 20; 30])
    by (unfold store_fits, len; cbn; lia).
  assert (Hinv : INV1 [10; 20; 30] 1 2) by (unfold INV1, len; cbn; lia).
  split; [by split |].
  exact (Push_keeps_INV1 Uint8 [10; 20; 30] 1 2 7 Hfits Hinv).
Defined.

(** X14.  The generic [Pop] keeps INV1.  On a store whose indices are values
    of the cursor type and cursors inside it, [Pop] returns, its new read
    cursor is inside the store, and [Len] has shrunk by one if it returned
    true and is unchanged otherwise. *)
Theorem Pop_keeps_INV1 {T : Type} `{ZeroValue T}
  (U : IntType) (slice : list T) (r w : Z) :
  store_fits U slice -> INV1 slice r w ->
  exists r' x ok,
    Pop U slice r w = Ok (slice, r', (x, ok)) /\
    INV1 slice r' w /\
    Len U slice r' w = Len U slice r w - (if ok then 1 else 0) /\
    0 <= Len U slice r' w.
Proof.
  intros Hfits [Hr Hw].
  destruct (fitting_cursor U slice r Hfits Hr) as [HUr HIr].
  destruct (fitting_cursor U slice w Hfits Hw) as [HUw HIw].
  pose proof Hfits as [HI HU].
  pose proof (inv_intro slice r w Hr Hw HI) as Hinv.
  pose proof (count_bounds _ Hinv) as Hbounds.
  pose proof (count_formula _ Hinv) as Hformula.
  cbn [read write buffer] in Hbounds, Hformula.
  assert (HLen : Len U slice r w = count (mkRingBuffer r w slice)).
  { rewrite Hformula. by apply Len_nonneg_cursors. }
  destruct (Z.eq_dec r w) as [-> | Hne].
  - exists w, zero_value, false. rewrite Pop_empty.
    repeat split; try done; lia.
  - destruct (lookup_in_bounds slice r Hr) as [x Hx].
    pose proof (count_after_Pop _ Hinv Hne) as Hafter.
    cbn [read write buffer] in Hafter.
    assert (Hr' : 0 <= (r + 1) mod len slice < len slice)
      by (apply Z.mod_pos_bound; lia).
    pose proof (inv_intro slice _ w Hr' Hw HI) as Hinv'.
    pose proof (count_bounds _ Hinv') as Hbounds'.
    pose proof (count_formula _ Hinv') as Hformula'.
    cbn [read write buffer] in Hbounds', Hformula'.
    assert (HLen' : Len U slice ((r + 1) mod len slice) w
                    = count (mkRingBuffer ((r + 1) mod len slice) w slice)).
    { rewrite Hformula'. apply Len_nonneg_cursors; try done.
      - pose proof (min_int_nonpos U). unfold in_range. lia.
      - lia. }
    assert (Hcount' : count (mkRingBuffer ((r + 1) mod len slice) w slice)
                      = count (mkRingBuffer r w slice) - 1)
      by exact Hafter.
    exists ((r + 1) mod len slice), x, true.
    rewrite (Pop_in_bounds U slice r w x) by done.
    rewrite HLen', HLen, Hcount'. rewrite Hcount' in Hbounds'.
    repeat split; try done; lia.
Qed.

Lemma Pop_keeps_INV1_witness :
  (store_fits Int16 [10; 20; 30] /\ INV1 [10; 20; 30] 2 1) /\
  exists r' x ok,
    Pop Int16 [10; 20; 30] 2 1 = Ok ([10; 20; 30], r', (x, ok)) /\
    INV1 [10; 20; 30] r' 1 /\
    Len Int16 [10; 20; 30] r' 1
      = Len Int16 [10; 20; 30] 2 1 - (if ok then 1 else 0) /\
    0 <= Len Int16 [10; 20; 30] r' 1.
Proof.
  assert (Hfits : store_fits Int16 [10; 20; 30])
    by (unfold store_fits, len; cbn; lia).
  assert (Hinv : INV1 [10; 20; 30] 2 1) by (unfold INV1, len; cbn; lia).
  split; [by split |].
  exact (Pop_keeps_INV1 Int16 [10; 20; 30] 2 1 Hfits Hinv).
Defined.

(** ** Faults *)

(** X15.  [Pop] panics exactly when the cursors differ and the read cursor is
    outside the store, and then with an index out of range: the division by
    [len(slice)], which [Pop] does not guard, is never a division by zero. *)
Theorem Pop_panics_iff {T : Type} `{ZeroValue T}
  (U : IntType) (slice : list T) (r w : Z) :
  (Pop U slice r w = Panic IndexOutOfRange
     <-> r <> w /\ ~ 0 <= r < len slice) /\
  Pop U slice r w <> Panic DivideByZero /\
  Pop U slice r w <> Panic MakesliceLenOutOfRange.
Proof.
  split; [split |].
  - intros HP. by destruct (Pop_Panic U slice r w _ HP) as (_ & Hne & Hout).
  - intros [Hne Hout]. unfold Pop.
    rewrite (proj2 (Z.eqb_neq r w) Hne).
    by rewrite index_out_of_bounds.
  - split; intros HP; by destruct (Pop_Panic U slice r w _ HP) as (Hp & _).
Qed.

(** X16.  With the write cursor outside the store, in particular on a store
    of length zero, [Push] stores nothing: it returns false, leaving store
    and cursor, or panics with an index out of range.  On a store of length
    zero it returns false. *)
Theorem Push_outside_store {T : Type}
  (U : IntType) (slice : list T) (r w : Z) (v : T) :
  ~ 0 <= w < len slice ->
  (Push U slice r w v = Ok (slice, w, false) \/
   Push U slice r w v = Panic IndexOutOfRange) /\
  (len slice = 0 -> Push U slice r w v = Ok (slice, w, false)).
Proof.
  intros Hout. split; [| apply Push_empty_store].
  destruct (Push U slice r w v) as [[[slice' w'] ok] | p] eqn:HP.
  - destruct (Push_Ok_frame _ _ _ _ _ _ _ _ HP) as [Hfalse Htrue].
    destruct ok; [by destruct (Htrue eq_refl) |].
    destruct (Hfalse eq_refl) as [-> ->]. by left.
  - destruct (Push_Panic _ _ _ _ _ _ HP) as (-> & _). by right.
Qed.

Lemma Push_outside_store_witness :
  ~ 0 <= 5 < len [10; 20; 30] /\
  (Push Int [10; 20; 30] 1 5 7 = Ok ([10; 20; 30], 5, false) \/
   Push Int [10; 20; 30] 1 5 7 = Panic IndexOutOfRange).
Proof.
  assert (Hout : ~ 0 <= 5 < len [10; 20; 30]) by (unfold len; cbn; lia).
  split; [exact Hout |].
  exact (proj1 (Push_outside_store Int [10; 20; 30] 1 5 7 Hout)).
Defined.

(** ** The test file *)

Section ScriptFacts.
Context {T : Type} `{ZeroValue T} `{EqDecision T}.
Implicit Types (b : RingBuffer T) (st : stmt (T := T)).

Lemma run_stmt_queue st b passed :
  well_formed b ->
  exists b',
    run_stmt st (b, passed)
      = Ok (b', (queue_stmt (RingBuffer_Cap b) st (contents b, passed)).2) /\
    well_formed b' /\
    contents b'
      = (queue_stmt (RingBuffer_Cap b) st (contents b, passed)).1 /\
    RingBuffer_Cap b' = RingBuffer_Cap b.
Proof.
  intros Hwf. destruct st as [n | n | e v | v e]; cbn [run_stmt queue_stmt].
  - by exists b.
  - exists b. by rewrite (well_formed_Len b Hwf).
  - destruct (well_formed_Push b v Hwf) as (b' & -> & Hwf' & Hcontents & Hcap).
    exists b'. cbn. by destruct (queue_push _ _ _).
  - destruct (well_formed_Pop b Hwf) as (b' & -> & Hwf' & Hcontents & Hcap).
    exists b'. cbn. by destruct (queue_pop _) as [l' [x ok]].
Qed.

Lemma run_script_queue (script : list (stmt (T := T))) : forall b passed,
  well_formed b ->
  exists b',
    run_script script (b, passed)
      = Ok (b', (queue_script (RingBuffer_Cap b) script
                   (contents b, passed)).2) /\
    well_formed b' /\
    contents b'
      = (queue_script (RingBuffer_Cap b) script (contents b, passed)).1 /\
    RingBuffer_Cap b' = RingBuffer_Cap b.
Proof.
  induction script as [| st script IH]; intros b passed Hwf.
  - by exists b.
  - destruct (run_stmt_queue st b passed Hwf)
      as (b1 & Hrun & Hwf1 & Hcontents1 & Hcap1).
    cbn [run_script]. rewrite Hrun. cbn.
    destruct (IH b1 (queue_stmt (RingBuffer_Cap b) st (contents b, passed)).2
                Hwf1) as (b' & Hrest & Hwf' & Hcontents' & Hcap').
    rewrite Hcontents1, Hcap1, <- surjective_pairing in Hrest, Hcontents'.
    exists b'. unfold queue_script in *. cbn [foldl].
    split; [done |]. split; [done |]. split; [done | congruence].
Qed.
End ScriptFacts.

(** X17.  The container is a bounded queue to every script.  On a well formed
    state, a sequence of checked calls of [Cap], [Len], [Push] and [Pop]
    runs without fault and passes exactly when it passes on a list bounded
    by [Cap()] that starts with the stored elements. *)
Theorem script_on_queue {T : Type} `{ZeroValue T} `{EqDecision T}
  (script : list (stmt (T := T))) (b : RingBuffer T) (passed : bool) :
  well_formed b ->
  exists b',
    run_script script (b, passed)
      = Ok (b', (queue_script (RingBuffer_Cap b) script
                   (contents b, passed)).2) /\
    contents b'
      = (queue_script (RingBuffer_Cap b) script (contents b, passed)).1.
Proof.
  intros Hwf.
  destruct (run_script_queue script b passed Hwf) as (b' & Hrun & _ & Hc & _).
  by exists b'.
Qed.

Lemma script_on_queue_witness :
  well_formed (mkRingBuffer 2 0 [0; 6; 5]) /\
  exists b',
    run_script [ExpectLen 1; ExpectPush true 7; ExpectPush false 8;
                ExpectPop 5 true; ExpectCap 2]
      (mkRingBuffer 2 0 [0; 6; 5], true) = Ok (b', true) /\
    contents b' = [7].
Proof.
  assert (Hwf : well_formed (mkRingBuffer 2 0 [0; 6; 5])).
  { left. unfold inv, INV1, len. rewrite max_int_Int. cbn. lia. }
  split; [exact Hwf |].
  exact (script_on_queue
           [ExpectLen 1; ExpectPush true 7; ExpectPush false 8;
            ExpectPop 5 true; ExpectCap 2]
           (mkRingBuffer 2 0 [0; 6; 5]) true Hwf).
Defined.

Lemma first_loop_body_on_queue passed :
  queue_script 3 first_loop_body ([], passed) = ([], passed).
Proof. by destruct passed. Qed.

Lemma second_loop_body_on_queue passed :
  queue_script 3 second_loop_body ([], passed) = ([], passed).
Proof. by destruct passed. Qed.

Lemma run_loop_neutral (body : list (stmt (T := Z))) (n : nat) :
  (forall passed, queue_script 3 body ([], passed) = ([], passed)) ->
  forall (b : RingBuffer Z) passed,
    well_formed b -> RingBuffer_Cap b = 3 -> contents b = [] ->
    exists b',
      run_loop n body (b, passed) = Ok (b', passed) /\
      well_formed b' /\ RingBuffer_Cap b' = 3 /\ contents b' = [].
Proof.
  intros Hbody. induction n as [| n IH]; intros b passed Hwf Hcap Hnil.
  - by exists b.
  - destruct (run_script_queue body b passed Hwf)
      as (b1 & Hrun & Hwf1 & Hcontents1 & Hcap1).
    rewrite Hcap, Hnil, Hbody in Hrun, Hcontents1. cbn [fst snd] in *.
    destruct (IH b1 passed Hwf1 ltac:(congruence) Hcontents1)
      as (b' & Hloop & Hwf' & Hcap' & Hnil').
    exists b'. cbn [run_loop]. rewrite Hrun. cbn. by rewrite Hloop.
Qed.

(** X18.  The loops of [TestRingBuffer] pass, however often they run.  From
    every empty well formed state of capacity 3, wherever its cursors are,
    any number of rounds of the first loop followed by any number of rounds
    of the second pass all their assertions and leave an empty buffer of
    capacity 3. *)
Theorem TestRingBuffer_loops_pass (n m : nat) (b : RingBuffer Z) :
  well_formed b -> RingBuffer_Cap b = 3 -> RingBuffer_Len b = 0 ->
  exists b1 b2,
    run_loop n first_loop_body (b, true) = Ok (b1, true) /\
    run_loop m second_loop_body (b1, true) = Ok (b2, true) /\
    RingBuffer_Cap b2 = 3 /\ RingBuffer_Len b2 = 0.
Proof.
  intros Hwf Hcap HLen.
  assert (Hnil : contents b = []).
  { rewrite (well_formed_Len b Hwf) in HLen. unfold len in HLen.
    destruct (contents b); [done | cbn in HLen; lia]. }
  destruct (run_loop_neutral first_loop_body n first_loop_body_on_queue
              b true Hwf Hcap Hnil) as (b1 & Hloop1 & Hwf1 & Hcap1 & Hnil1).
  destruct (run_loop_neutral second_loop_body m second_loop_body_on_queue
              b1 true Hwf1 Hcap1 Hnil1) as (b2 & Hloop2 & Hwf2 & Hcap2 & Hnil2).
  exists b1, b2. split; [done |]. split; [done |]. split; [done |].
  by rewrite (well_formed_Len b2 Hwf2), Hnil2.
Qed.

Lemma TestRingBuffer_loops_pass_witness :
  (well_formed (mkRingBuffer 0 0 [0; 0; 0; 0]) /\
   RingBuffer_Cap (mkRingBuffer 0 0 [0; 0; 0; 0]) = 3 /\
   RingBuffer_Len (mkRingBuffer 0 0 [0; 0; 0; 0]) = 0) /\
  exists b1 b2,
    run_loop 10 first_loop_body (mkRingBuffer 0 0 [0; 0; 0; 0], true)
      = Ok (b1, true) /\
    run_loop 10 second_loop_body (b1, true) = Ok (b2, true) /\
    RingBuffer_Cap b2 = 3 /\ RingBuffer_Len b2 = 0.
Proof.
  assert (Hwf : well_formed (mkRingBuffer 0 0 [0; 0; 0; 0])).
  { left. unfold inv, INV1, len. rewrite max_int_Int. cbn. lia. }
  assert (Hcap : RingBuffer_Cap (mkRingBuffer 0 0 [0; 0; 0; 0]) = 3)
    by reflexivity.
  assert (HLen : RingBuffer_Len (mkRingBuffer 0 0 [0; 0; 0; 0]) = 0)
    by reflexivity.
  split; [by repeat split |].
  exact (TestRingBuffer_loops_pass 10 10 _ Hwf Hcap HLen).
Defined.

(** The test function as written, with its ten rounds of each loop. *)
Lemma TestRingBuffer_passes : TestRingBuffer = Ok true.
Proof. vm_compute. reflexivity. Qed.
